(** * Monomaxia: the simulation core of [monomaxia.c]

    A shallow embedding of the game state and of the four per-frame update
    routines ([HandleInput], [UpdateShips], [UpdateProjectiles], [CheckHits])
    together with the frame guard of [main], and the properties of the
    duel's simulation step proved over it.

    C [int]s are 32-bit two's-complement values held in [Z]; the fixed-size
    arrays ([players], [projectiles], [map]) are lists that are read with
    [!!!] and written in place with [alter]/[<[_:=_]>]. *)

From Stdlib Require Import ZArith Lia Bool Ascii String DecimalString QArith.
From stdpp Require Import base numbers list strings.

Local Open Scope Z_scope.

(** * Part I: the program *)

(** ** Constants (lines 31-37) *)

Definition MAP_WIDTH : Z := 20.
Definition MAP_HEIGHT : Z := 10.
Definition MAX_PLAYERS : nat := 2.
Definition MAX_PROJECTILES : nat := 5.
Definition MAX_SPEED : Z := 1.

(** ** C [int] arithmetic *)

Definition INT_MIN : Z := - 2 ^ 31.
Definition INT_MAX : Z := 2 ^ 31 - 1.

(** [fits z]: [z] is representable in an [int]. *)
Definition fits (z : Z) : Prop := INT_MIN <= z <= INT_MAX.

(** Two's-complement wrap-around of a mathematical integer. *)
Definition wrap (z : Z) : Z := (z + 2 ^ 31) mod 2 ^ 32 - 2 ^ 31.

Definition int_add (a b : Z) : Z := wrap (a + b).
Definition int_dec (a : Z) : Z := wrap (a - 1).

Arguments wrap : simpl never.
Arguments int_add : simpl never.
Arguments int_dec : simpl never.

(** ** Structs (lines 46-74) *)

Record Projectile := mkProjectile {
  p_x : Z; p_y : Z;        (* position in map cells *)
  p_dx : Z; p_dy : Z;      (* movement direction *)
  p_active : bool          (* whether the projectile is still moving *)
}.

Record Ship := mkShip {
  s_x : Z; s_y : Z;        (* position (map cells) *)
  s_hp : Z;                (* health points *)
  s_vx : Z; s_vy : Z;      (* movement of this frame, set by input *)
  s_projectiles : list Projectile
}.

Record Player := mkPlayer {
  pl_name : string;
  pl_ship : Ship
}.

Record GameState := mkGameState {
  gs_players : list Player;
  gs_gameOver : bool;
  gs_map : list (list ascii)
}.

(** What [memset(.., 0, ..)] leaves in each struct; also the value a read
    outside an array would give in this model (the source never performs
    one: every index is a loop counter below the array's size, or a map
    coordinate that was range-checked first). *)
Definition zero_projectile : Projectile := mkProjectile 0 0 0 0 false.
Definition zero_ship : Ship :=
  mkShip 0 0 0 0 0 (replicate MAX_PROJECTILES zero_projectile).
Definition zero_player : Player := mkPlayer EmptyString zero_ship.
Definition zero_map : list (list ascii) :=
  replicate (Z.to_nat MAP_HEIGHT) (replicate (Z.to_nat MAP_WIDTH) Ascii.zero).
Definition zero_game : GameState :=
  mkGameState (replicate MAX_PLAYERS zero_player) false zero_map.

#[global] Instance Projectile_inhabited : Inhabited Projectile :=
  populate zero_projectile.
#[global] Instance Ship_inhabited : Inhabited Ship := populate zero_ship.
#[global] Instance Player_inhabited : Inhabited Player := populate zero_player.
#[global] Instance ascii_inhabited : Inhabited ascii := populate Ascii.zero.

(** ** Field access and in-place update *)

Definition set_pos (nx ny : Z) (s : Ship) : Ship :=
  mkShip nx ny (s_hp s) (s_vx s) (s_vy s) (s_projectiles s).
Definition set_hp (h : Z) (s : Ship) : Ship :=
  mkShip (s_x s) (s_y s) h (s_vx s) (s_vy s) (s_projectiles s).
Definition set_vx (v : Z) (s : Ship) : Ship :=
  mkShip (s_x s) (s_y s) (s_hp s) v (s_vy s) (s_projectiles s).
Definition set_vy (v : Z) (s : Ship) : Ship :=
  mkShip (s_x s) (s_y s) (s_hp s) (s_vx s) v (s_projectiles s).
Definition set_projectiles (ps : list Projectile) (s : Ship) : Ship :=
  mkShip (s_x s) (s_y s) (s_hp s) (s_vx s) (s_vy s) ps.
Definition set_ship (s : Ship) (pl : Player) : Player :=
  mkPlayer (pl_name pl) s.
Definition set_name (n : string) (pl : Player) : Player :=
  mkPlayer n (pl_ship pl).
Definition set_players (pls : list Player) (g : GameState) : GameState :=
  mkGameState pls (gs_gameOver g) (gs_map g).
Definition set_gameOver (b : bool) (g : GameState) : GameState :=
  mkGameState (gs_players g) b (gs_map g).
Definition set_map (m : list (list ascii)) (g : GameState) : GameState :=
  mkGameState (gs_players g) (gs_gameOver g) m.
Definition set_active (b : bool) (p : Projectile) : Projectile :=
  mkProjectile (p_x p) (p_y p) (p_dx p) (p_dy p) b.
Definition set_ppos (nx ny : Z) (p : Projectile) : Projectile :=
  mkProjectile nx ny (p_dx p) (p_dy p) (p_active p).

(** [game->players[i].ship] *)
Definition ship_of (i : nat) (g : GameState) : Ship :=
  pl_ship (gs_players g !!! i).

(** [game->players[i].ship.projectiles[j]] *)
Definition projectile_of (i j : nat) (g : GameState) : Projectile :=
  s_projectiles (ship_of i g) !!! j.

(** [game->map[r][c]] *)
Definition map_at (m : list (list ascii)) (r c : Z) : ascii :=
  (m !!! Z.to_nat r) !!! Z.to_nat c.

(** A write through [Ship *ship = &game->players[i].ship]. *)
Definition upd_ship (i : nat) (f : Ship → Ship) (g : GameState) : GameState :=
  set_players (alter (λ pl, set_ship (f (pl_ship pl)) pl) i (gs_players g)) g.

(** A write through [Projectile *p = &game->players[i].ship.projectiles[j]]. *)
Definition upd_projectile (i j : nat) (f : Projectile → Projectile)
    (g : GameState) : GameState :=
  upd_ship i (λ s, set_projectiles (alter f j (s_projectiles s)) s) g.

(** [game->map[r][c] = ch] *)
Definition map_set (r c : nat) (ch : ascii) (g : GameState) : GameState :=
  set_map (alter (λ row, <[c := ch]> row) r (gs_map g)) g.

(** ** Loops *)

(** [for (int i = i0; i < i0 + n; i++) body], without [break] or [return]. *)
Fixpoint for_loop {S : Type} (n : nat) (i : nat) (body : nat → S → S)
    (s : S) : S :=
  match n with
  | O => s
  | Datatypes.S n' => for_loop n' (Datatypes.S i) body (body i s)
  end.

(** Outcome of a statement inside a function that may [return] early. *)
Inductive ctl : Type :=
  | Running (g : GameState)
  | Returned (g : GameState).

(** A [for] loop whose body may [return] from the enclosing function. *)
Fixpoint for_ret (n : nat) (i : nat) (body : nat → GameState → ctl)
    (g : GameState) : ctl :=
  match n with
  | O => Running g
  | Datatypes.S n' =>
      match body i g with
      | Running g' => for_ret n' (Datatypes.S i) body g'
      | Returned g' => Returned g'
      end
  end.

(** ** InitGame, InitMap, InitShip, InitProjectile (lines 163-221) *)

Definition InitProjectile (p : Projectile) : Projectile :=
  mkProjectile (-1) (-1) 0 0 false.

Definition InitShip (startX startY : Z) (ship : Ship) : Ship :=
  let ship := set_pos startX startY ship in
  let ship := set_hp 3 ship in
  let ship := set_vx 0 ship in
  let ship := set_vy 0 ship in
  for_loop MAX_PROJECTILES 0
    (λ i s, set_projectiles (alter InitProjectile i (s_projectiles s)) s) ship.

Definition InitMap (game : GameState) : GameState :=
  let game :=
    for_loop (Z.to_nat MAP_HEIGHT) 0 (λ r game,
      for_loop (Z.to_nat MAP_WIDTH) 0 (λ c game,
        if (Z.of_nat r =? 0) || (Z.of_nat r =? MAP_HEIGHT - 1)
           || (Z.of_nat c =? 0) || (Z.of_nat c =? MAP_WIDTH - 1)
        then map_set r c "#"%char game      (* boundary *)
        else map_set r c "."%char game) game) game in
  (* some obstacles *)
  let game := map_set 3 5 "X"%char game in
  let game := map_set 5 8 "X"%char game in
  map_set 6 10 "X"%char game.

Definition InitGame : GameState :=
  let game := zero_game in                       (* memset *)
  let game := InitMap game in
  let game := set_players (alter (set_name "Player1") 0%nat (gs_players game)) game in
  let game := set_players (alter (set_name "Player2") 1%nat (gs_players game)) game in
  let game := upd_ship 0 (InitShip 2 2) game in
  let game := upd_ship 1 (InitShip (MAP_WIDTH - 2) (MAP_HEIGHT - 2)) game in
  set_gameOver false game.

(** ** Terrain *)

(** The collision test that [UpdateShips] (lines 426-429) and
    [UpdateProjectiles] (lines 459-462) both spell out: the target is
    outside the map, or its cell is a boundary ['#'] or an obstacle ['X'].
    The range tests come first, so the map is only read in range. *)
Definition blocked (m : list (list ascii)) (nx ny : Z) : bool :=
  (nx <? 0) || (nx >=? MAP_WIDTH) ||
  (ny <? 0) || (ny >=? MAP_HEIGHT) ||
  Ascii.eqb (map_at m ny nx) "#" ||
  Ascii.eqb (map_at m ny nx) "X".

Arguments blocked : simpl never.

(** The three kinds of cell [InitMap] writes and [DrawGame] tells apart. *)
Inductive Cell : Type := Open | Wall | Obstacle.

Definition classify (m : list (list ascii)) (cx cy : Z) : Cell :=
  if Ascii.eqb (map_at m cy cx) "#" then Wall
  else if Ascii.eqb (map_at m cy cx) "X" then Obstacle
  else Open.

Definition in_range (cx cy : Z) : Prop :=
  0 <= cx < MAP_WIDTH ∧ 0 <= cy < MAP_HEIGHT.

(** ** Keyboard (raylib's [IsKeyDown] and [IsKeyPressed] for one frame) *)

Inductive KeyboardKey : Type :=
  | KEY_W | KEY_S | KEY_A | KEY_D | KEY_LEFT_SHIFT
  | KEY_UP | KEY_DOWN | KEY_LEFT | KEY_RIGHT | KEY_RIGHT_SHIFT.

Record Keyboard := mkKeyboard {
  IsKeyDown : KeyboardKey → bool;
  IsKeyPressed : KeyboardKey → bool
}.

(** ** HandleInput (lines 337-410) *)

(** The firing loop, lines 358-375 for player 0 and 391-408 for player 1:
    the first projectile slot that is not active is written and the loop is
    left by [break]. *)
Fixpoint fire_from (n : nat) (i : nat) (pl : nat) (game : GameState)
    : GameState :=
  match n with
  | O => game
  | Datatypes.S n' =>
      if negb (p_active (projectile_of pl i game)) then
        let dx := s_vx (ship_of pl game) in
        let dy := s_vy (ship_of pl game) in
        let dy := if (dx =? 0) && (dy =? 0) then -1 else dy in
        upd_projectile pl i
          (λ _, mkProjectile (s_x (ship_of pl game)) (s_y (ship_of pl game))
                  dx dy true) game
      else fire_from n' (Datatypes.S i) pl game
  end.

Definition fire (pl : nat) (game : GameState) : GameState :=
  fire_from MAX_PROJECTILES 0 pl game.

Definition HandleInput (kb : Keyboard) (game : GameState) : GameState :=
  (* reset velocities each frame *)
  let game := upd_ship 0 (set_vx 0) game in
  let game := upd_ship 0 (set_vy 0) game in
  let game := upd_ship 1 (set_vx 0) game in
  let game := upd_ship 1 (set_vy 0) game in
  (* player 1: W, A, S, D and left shift *)
  let game := if IsKeyDown kb KEY_W then upd_ship 0 (set_vy (- MAX_SPEED)) game else game in
  let game := if IsKeyDown kb KEY_S then upd_ship 0 (set_vy MAX_SPEED) game else game in
  let game := if IsKeyDown kb KEY_A then upd_ship 0 (set_vx (- MAX_SPEED)) game else game in
  let game := if IsKeyDown kb KEY_D then upd_ship 0 (set_vx MAX_SPEED) game else game in
  let game := if IsKeyPressed kb KEY_LEFT_SHIFT then fire 0 game else game in
  (* player 2: arrows and right shift *)
  let game := if IsKeyDown kb KEY_UP then upd_ship 1 (set_vy (- MAX_SPEED)) game else game in
  let game := if IsKeyDown kb KEY_DOWN then upd_ship 1 (set_vy MAX_SPEED) game else game in
  let game := if IsKeyDown kb KEY_LEFT then upd_ship 1 (set_vx (- MAX_SPEED)) game else game in
  let game := if IsKeyDown kb KEY_RIGHT then upd_ship 1 (set_vx MAX_SPEED) game else game in
  if IsKeyPressed kb KEY_RIGHT_SHIFT then fire 1 game else game.

(** ** UpdateShips (lines 417-443) *)

(** What one iteration does to the ship it points at. *)
Definition move_ship (m : list (list ascii)) (ship : Ship) : Ship :=
  let nx := int_add (s_x ship) (s_vx ship) in
  let ny := int_add (s_y ship) (s_vy ship) in
  if blocked m nx ny
  then set_hp (int_dec (s_hp ship)) ship     (* collide: lose 1 HP, do not move *)
  else set_pos nx ny ship.

Definition UpdateShips_body (i : nat) (game : GameState) : GameState :=
  let ship := ship_of i game in
  let nx := int_add (s_x ship) (s_vx ship) in
  let ny := int_add (s_y ship) (s_vy ship) in
  if blocked (gs_map game) nx ny then
    let game := upd_ship i (λ s, set_hp (int_dec (s_hp s)) s) game in
    if s_hp (ship_of i game) <=? 0 then set_gameOver true game else game
  else
    upd_ship i (set_pos nx ny) game.

Definition UpdateShips (game : GameState) : GameState :=
  for_loop MAX_PLAYERS 0 UpdateShips_body game.

(** ** UpdateProjectiles (lines 448-475) *)

(** What the inner loop's body does to the projectile it points at. *)
Definition advance (m : list (list ascii)) (p : Projectile) : Projectile :=
  if p_active p then
    let nx := int_add (p_x p) (p_dx p) in
    let ny := int_add (p_y p) (p_dy p) in
    if blocked m nx ny
    then set_active false p                  (* obstacle or boundary *)
    else set_ppos nx ny p
  else p.

Definition UpdateProjectiles (game : GameState) : GameState :=
  for_loop MAX_PLAYERS 0 (λ i game,
    for_loop MAX_PROJECTILES 0 (λ j game,
      upd_projectile i j (advance (gs_map game)) game) game) game.

(** ** CheckHits (lines 481-524) *)

(** The body of both loops: [shooter]'s projectile [i] against the ship of
    [target] (0 against 1 in the first loop, 1 against 0 in the second). *)
Definition CheckHits_body (shooter target : nat) (i : nat) (game : GameState)
    : ctl :=
  let p := projectile_of shooter i game in
  let tgt := ship_of target game in
  if p_active p && (p_x p =? s_x tgt) && (p_y p =? s_y tgt) then
    let game := upd_ship target (λ s, set_hp (int_dec (s_hp s)) s) game in
    let game := upd_projectile shooter i (set_active false) game in
    if s_hp (ship_of target game) <=? 0
    then Returned (set_gameOver true game)
    else Running game
  else Running game.

Definition CheckHits (game : GameState) : GameState :=
  if (s_hp (ship_of 0 game) <=? 0) && (s_hp (ship_of 1 game) <=? 0) then
    set_gameOver true game
  else
    (* A's projectiles -> B *)
    match for_ret MAX_PROJECTILES 0 (CheckHits_body 0 1) game with
    | Returned game => game
    | Running game =>
        (* B's projectiles -> A *)
        match for_ret MAX_PROJECTILES 0 (CheckHits_body 1 0) game with
        | Returned game => game
        | Running game => game
        end
    end.

(** ** The simulation part of one frame of [main] (lines 112-125) *)

Definition Step (kb : Keyboard) (game : GameState) : GameState :=
  if negb (gs_gameOver game) then
    let game := HandleInput kb game in
    let game := UpdateShips game in
    let game := UpdateProjectiles game in
    CheckHits game
  else game.

Arguments HandleInput : simpl never.
Arguments UpdateShips : simpl never.
Arguments UpdateProjectiles : simpl never.
Arguments CheckHits : simpl never.

(** The frames of a run, one keyboard reading per frame. *)
Definition run (kbs : list Keyboard) (game : GameState) : GameState :=
  fold_left (λ game kb, Step kb game) kbs game.

(** The end-of-game message of [main] (lines 135-152). *)
Inductive Verdict : Type := Tie | Winner (i : nat).

Definition verdict (game : GameState) : option Verdict :=
  if gs_gameOver game then
    let hpA := s_hp (ship_of 0 game) in
    let hpB := s_hp (ship_of 1 game) in
    if (hpA <=? 0) && (hpB <=? 0) then Some Tie
    else Some (Winner (if hpB >? hpA then 1%nat else 0%nat))
  else None.

(** * Part II: vocabulary of the properties *)

(** ** Keyboard readings *)

#[global] Instance KeyboardKey_eq_dec : EqDecision KeyboardKey.
Proof. solve_decision. Defined.

(** The reading in which exactly the keys of [down] are held and exactly
    those of [pressed] went down in this frame. *)
Definition keys (down pressed : list KeyboardKey) : Keyboard :=
  mkKeyboard (λ k, bool_decide (k ∈ down)) (λ k, bool_decide (k ∈ pressed)).

Definition no_keys : Keyboard := keys [] [].

(** ** Well-formed states and blocking cells *)

(** The array sizes the C types fix: two players, five projectile slots
    each. *)
Definition wf (g : GameState) : Prop :=
  length (gs_players g) = MAX_PLAYERS ∧
  Forall (λ pl, length (s_projectiles (pl_ship pl)) = MAX_PROJECTILES)
    (gs_players g).

(** The spec's notion of a blocking cell: out of range, Wall or Obstacle. *)
Definition is_blocking (m : list (list ascii)) (cx cy : Z) : Prop :=
  ¬ in_range cx cy ∨ classify m cx cy = Wall ∨ classify m cx cy = Obstacle.

(** ** What one frame does to one ship *)

(** Two keys of one axis, polled one after the other: the later write wins. *)
Definition axis (neg pos : bool) : Z :=
  if pos then MAX_SPEED else if neg then - MAX_SPEED else 0.

Definition set_vel (vx vy : Z) (s : Ship) : Ship := set_vy vy (set_vx vx s).

(** The keys of player [pl]: left, right, up, down and the trigger. *)
Definition key_left (pl : nat) : KeyboardKey :=
  match pl with O => KEY_A | _ => KEY_LEFT end.
Definition key_right (pl : nat) : KeyboardKey :=
  match pl with O => KEY_D | _ => KEY_RIGHT end.
Definition key_up (pl : nat) : KeyboardKey :=
  match pl with O => KEY_W | _ => KEY_UP end.
Definition key_down (pl : nat) : KeyboardKey :=
  match pl with O => KEY_S | _ => KEY_DOWN end.
Definition trigger (pl : nat) : KeyboardKey :=
  match pl with O => KEY_LEFT_SHIFT | _ => KEY_RIGHT_SHIFT end.

(** This frame's velocity of player [pl]. *)
Definition intent_vx (kb : Keyboard) (pl : nat) : Z :=
  axis (IsKeyDown kb (key_left pl)) (IsKeyDown kb (key_right pl)).
Definition intent_vy (kb : Keyboard) (pl : nat) : Z :=
  axis (IsKeyDown kb (key_up pl)) (IsKeyDown kb (key_down pl)).

(** The projectile a firing ship writes into the slot: at the ship's cell,
    along this frame's velocity, upward when the ship stands still. *)
Definition shot (s : Ship) : Projectile :=
  mkProjectile (s_x s) (s_y s) (s_vx s)
    (if (s_vx s =? 0) && (s_vy s =? 0) then -1 else s_vy s) true.

(** Index of the first slot that is not active, scanning upwards. *)
Fixpoint first_free (ps : list Projectile) : option nat :=
  match ps with
  | [] => None
  | p :: ps' => if p_active p then Datatypes.S <$> first_free ps' else Some 0%nat
  end.

(** Firing, seen on the firing ship alone. *)
Definition fire_ship (s : Ship) : Ship :=
  match first_free (s_projectiles s) with
  | Some i => set_projectiles (<[i := shot s]> (s_projectiles s)) s
  | None => s
  end.

(** The ship collides and is left without health. *)
Definition wrecked (m : list (list ascii)) (ship : Ship) : bool :=
  blocked m (int_add (s_x ship) (s_vx ship)) (int_add (s_y ship) (s_vy ship))
  && (int_dec (s_hp ship) <=? 0).

(** ** The containment invariant *)

(** A cell a ship or a shot may occupy: on the map and open water. *)
Definition open_cell (m : list (list ascii)) (cx cy : Z) : Prop :=
  in_range cx cy ∧ classify m cx cy = Open.

Definition ship_ok (m : list (list ascii)) (s : Ship) : Prop :=
  open_cell m (s_x s) (s_y s).

Definition proj_ok (m : list (list ascii)) (p : Projectile) : Prop :=
  p_active p = true → open_cell m (p_x p) (p_y p).

Definition ship_inv (m : list (list ascii)) (s : Ship) : Prop :=
  ship_ok m s ∧
  length (s_projectiles s) = MAX_PROJECTILES ∧
  Forall (proj_ok m) (s_projectiles s).

Definition Inv (g : GameState) : Prop :=
  length (gs_players g) = MAX_PLAYERS ∧
  Forall (λ pl, ship_inv (gs_map g) (pl_ship pl)) (gs_players g).

(** Loop invariants for a loop that may return early. *)
Definition ctl_holds (P : GameState → Prop) (c : ctl) : Prop :=
  match c with Running g | Returned g => P g end.

(** ** Scenarios *)

(** A slot as [InitProjectile] leaves it. *)
Definition idle : Projectile := mkProjectile (-1) (-1) 0 0 false.

(** The terrain [InitMap] builds, row by row. *)
Definition bay : list (list ascii) :=
  list_ascii_of_string <$>
  [ "####################";
    "#..................#";
    "#..................#";
    "#....X.............#";
    "#..................#";
    "#.......X..........#";
    "#.........X........#";
    "#..................#";
    "#..................#";
    "####################" ]%string.

(** Player 1 stands still and pulls the trigger. *)
Definition kb_fire_up : Keyboard := keys [] [KEY_LEFT_SHIFT].

(** Player 1 holds D (right) and pulls the trigger in the same frame. *)
Definition kb_move_and_fire : Keyboard := keys [KEY_D] [KEY_LEFT_SHIFT].

(** Player 1 holds A (left). *)
Definition kb_left : Keyboard := keys [KEY_A] [].

(** Ship A has moved to (1,2), next to the left wall, and A is held again. *)
Definition ramming : GameState := HandleInput kb_left (run [kb_left] InitGame).

(** Ship A fired upward from (2,2) one frame ago: its shot is at (2,1),
    one step below the top wall. *)
Definition shot_below_wall : GameState := run [kb_fire_up] InitGame.

(** A pool in which all five shots of ship A are in flight. *)
Definition pool_full : GameState :=
  upd_ship 0
    (set_projectiles (replicate MAX_PROJECTILES (mkProjectile 5 4 1 0 true)))
    InitGame.

(** Both ships at health 1, each with a shot on the other's cell: A's shot
    flies right from B's cell (10,5), B's shot flies left from A's cell
    (5,5). *)
Definition mutual_hit : GameState :=
  mkGameState
    [ mkPlayer "Player1"
        (mkShip 5 5 1 0 0 (mkProjectile 10 5 1 0 true :: replicate 4 idle));
      mkPlayer "Player2"
        (mkShip 10 5 1 0 0 (mkProjectile 5 5 (-1) 0 true :: replicate 4 idle)) ]
    false bay.

(** A steps left and B steps right, each along the shot that sits on it, so
    both shots are on their targets again when hits are resolved. *)
Definition kb_apart : Keyboard := keys [KEY_A; KEY_RIGHT] [].

(** A run of the game from its start: both ships ram a wall down to health
    1, B climbs to A's row, both fire along the row and step back, and the
    two shots cross the bay. After these 24 frames each shot is one step
    from the opposing ship. *)
Definition duel : list Keyboard :=
  [ keys [KEY_A; KEY_RIGHT] []; keys [KEY_A; KEY_RIGHT] []; keys [KEY_A; KEY_UP] [] ]
  ++ replicate 5 (keys [KEY_UP] [])
  ++ [ keys [KEY_D; KEY_LEFT] [KEY_LEFT_SHIFT; KEY_RIGHT_SHIFT];
       keys [KEY_A; KEY_RIGHT] [] ]
  ++ replicate 14 no_keys.

(** As [duel], but only A has rammed its wall (B is at health 3). *)
Definition last_stand : list Keyboard :=
  [ keys [KEY_A; KEY_UP] []; keys [KEY_A; KEY_UP] []; keys [KEY_A; KEY_UP] [] ]
  ++ replicate 3 (keys [KEY_UP] [])
  ++ [ keys [KEY_D; KEY_LEFT] [KEY_LEFT_SHIFT; KEY_RIGHT_SHIFT];
       keys [KEY_A; KEY_RIGHT] [] ]
  ++ replicate 14 no_keys.

(** ** Health, velocities and directions *)

(** One cell at most, in either sense, along one axis. *)
Definition unit_step (z : Z) : Prop := -1 <= z <= 1.

(** An active projectile flies one cell per frame along at least one axis. *)
Definition dir_ok (p : Projectile) : Prop :=
  p_active p = true →
  unit_step (p_dx p) ∧ unit_step (p_dy p) ∧ (p_dx p ≠ 0 ∨ p_dy p ≠ 0).

(** Velocity and shot directions of one ship. *)
Definition ship_steps (s : Ship) : Prop :=
  unit_step (s_vx s) ∧ unit_step (s_vy s) ∧ Forall dir_ok (s_projectiles s).

(** The flag is set exactly when a ship is out of health. *)
Definition over_iff_dead (g : GameState) : Prop :=
  gs_gameOver g = true ↔ s_hp (ship_of 0 g) <= 0 ∨ s_hp (ship_of 1 g) <= 0.

(** Health of both ships between [lo] and their bounds [a0], [b0]. *)
Definition hp_within (lo a0 b0 : Z) (g : GameState) : Prop :=
  length (gs_players g) = MAX_PLAYERS ∧
  lo <= s_hp (ship_of 0 g) <= a0 ∧
  lo <= s_hp (ship_of 1 g) <= b0 ∧
  over_iff_dead g.

Definition Steps (g : GameState) : Prop :=
  wf g ∧ ship_steps (ship_of 0 g) ∧ ship_steps (ship_of 1 g).

(** What holds of every state a game reaches between frames. *)
Definition Sane (g : GameState) : Prop :=
  Inv g ∧ Steps g ∧ hp_within (-1) 3 3 g.

(** Invariants of a loop that may return early: [P] while it runs, [Q] where
    it returns. *)
Definition ctl_holds2 (P Q : GameState → Prop) (c : ctl) : Prop :=
  match c with Running g => P g | Returned g => Q g end.

(** ** What a hit may change *)

(** A slot after hit resolution: as it was, or switched off. *)
Definition quenched (p p' : Projectile) : Prop :=
  p' = p ∨ p' = set_active false p.

(** A ship after hit resolution: same cell, same velocity, every slot as it
    was or switched off. *)
Definition ship_hit_frame (s s' : Ship) : Prop :=
  s_x s' = s_x s ∧ s_y s' = s_y s ∧
  s_vx s' = s_vx s ∧ s_vy s' = s_vy s ∧
  Forall2 quenched (s_projectiles s) (s_projectiles s').

Definition hit_frame (g g' : GameState) : Prop :=
  length (gs_players g') = MAX_PLAYERS ∧
  pl_name <$> gs_players g' = pl_name <$> gs_players g ∧
  gs_map g' = gs_map g ∧
  ship_hit_frame (ship_of 0 g) (ship_of 0 g') ∧
  ship_hit_frame (ship_of 1 g) (ship_of 1 g').

(** Two frames: A fires to the right while stepping right, then steps down. *)
Definition skirmish : list Keyboard := [kb_move_and_fire; keys [KEY_S] []].

(** The test [CheckHits] applies to slot [j] of [shooter] against the ship
    of [target] (lines 497 and 513). *)
Definition hit_test (shooter target : nat) (j : nat) (g : GameState) : bool :=
  p_active (projectile_of shooter j g)
  && (p_x (projectile_of shooter j g) =? s_x (ship_of target g))
  && (p_y (projectile_of shooter j g) =? s_y (ship_of target g)).

(** The other player. *)
Definition opponent (i : nat) : nat := match i with O => 1%nat | _ => 0%nat end.

(** Ship A has a shot of its own on its own cell; ship B is elsewhere with
    an idle pool. *)
Definition friendly_fire : GameState :=
  mkGameState
    [ mkPlayer "Player1"
        (mkShip 5 5 2 0 0 (mkProjectile 5 5 0 (-1) true :: replicate 4 idle));
      mkPlayer "Player2"
        (mkShip 9 5 2 0 0 (replicate 5 idle)) ]
    false bay.

(** ** The end-of-game text of [main] (lines 135-152) *)

(** [snprintf(buf, size, ...)] keeps at most [size - 1] characters. *)
Definition snprintf (size : nat) (s : string) : string :=
  substring 0 (size - 1) s.

(** The text [main] draws over the scene once the game is over: the tie
    text, or the winner text with the name of the player whose health is
    higher (player 0 when they are equal). *)
Definition game_over_text (game : GameState) : option string :=
  if gs_gameOver game then
    let hpA := s_hp (ship_of 0 game) in
    let hpB := s_hp (ship_of 1 game) in
    if (hpA <=? 0) && (hpB <=? 0) then Some "TIE! Nobody survived!"%string
    else
      let winnerIndex := if hpB >? hpA then 1%nat else 0%nat in
      Some (snprintf 100
              ("GAME OVER! Winner: " +:+ pl_name (gs_players game !!! winnerIndex)))
  else None.

(** Player 2 holds LEFT and RIGHT together and keeps the trigger held
    without a new press. *)
Definition kb_both_sides : Keyboard :=
  mkKeyboard (λ k, bool_decide (k ∈ [KEY_LEFT; KEY_RIGHT; KEY_RIGHT_SHIFT]))
             (λ _, false).

(** ** Drawing (lines 226-330)

    raylib's drawing calls are recorded in the order they are made. The two
    [float] arguments of the source, [SCREEN_SCALE / 4.0f] and [0.5f], are
    exact in binary floating point and are kept as rationals. *)

Definition SCREEN_SCALE : Z := 64.
Definition NET_LINE_SPACING : Z := 32.

Definition int_mul (a b : Z) : Z := wrap (a * b).
Definition int_sub (a b : Z) : Z := wrap (a - b).

(** [a / b] on C [int]s truncates towards zero. *)
Definition int_div (a b : Z) : Z := Z.quot a b.

Arguments int_mul : simpl never.
Arguments int_sub : simpl never.

Inductive Color : Type :=
  | RAYWHITE | BROWN | BLUE | LIGHTGRAY | DARKGRAY | RED | GREEN | WHITE | BLACK
  | Fade (c : Color) (alpha : Q).

Inductive DrawCmd : Type :=
  | DrawRectangle (posX posY width height : Z) (color : Color)
  | DrawLine (startX startY endX endY : Z) (color : Color)
  | DrawCircle (centerX centerY : Z) (radius : Q) (color : Color)
  | DrawText (text : string) (posX posY fontSize : Z) (color : Color).

(** [for (int x = 0; x < bound; x += step) body], at most [fuel] rounds. *)
Fixpoint for_step {S : Type} (fuel : nat) (x bound step : Z)
    (body : Z → S → S) (s : S) : S :=
  match fuel with
  | O => s
  | Datatypes.S fuel' =>
      if x <? bound
      then for_step fuel' (int_add x step) bound step body (body x s)
      else s
  end.

(** The background and the net (lines 226-244). A loop that advances by 32
    from 0 ends within [bound] rounds as long as [x + 32] does not overflow. *)
Definition DrawBayBackground (screenWidth screenHeight : Z) : list DrawCmd :=
  let out := [DrawRectangle 0 0 screenWidth screenHeight BROWN] in
  let out := out ++ [DrawRectangle 0 0 screenWidth screenHeight BLUE] in
  let out :=
    for_step (Z.to_nat screenWidth) 0 screenWidth NET_LINE_SPACING
      (λ x out, out ++ [DrawLine x 0 x screenHeight (Fade LIGHTGRAY (1 # 2))]) out in
  for_step (Z.to_nat screenHeight) 0 screenHeight NET_LINE_SPACING
    (λ y out, out ++ [DrawLine 0 y screenWidth y (Fade LIGHTGRAY (1 # 2))]) out.

(** [(i == 0) ? RED : GREEN] *)
Definition side_color (i : nat) : Color :=
  match i with O => RED | _ => GREEN end.

(** [{(i == 0) ? 'A' : 'B', '\0'}] *)
Definition side_label (i : nat) : string :=
  match i with O => "A"%string | _ => "B"%string end.

(** [%d] *)
Definition string_of_int (z : Z) : string := NilZero.string_of_int (Z.to_int z).

(** [SCREEN_SCALE / 4.0f] *)
Definition shot_radius : Q := inject_Z SCREEN_SCALE / 4.

(** The scene (lines 249-330): background, terrain, shots, ships. *)
Definition DrawGame (game : GameState) : list DrawCmd :=
  let screenWidth := int_mul MAP_WIDTH SCREEN_SCALE in
  let screenHeight := int_mul MAP_HEIGHT SCREEN_SCALE in
  let out := DrawBayBackground screenWidth screenHeight in
  (* obstacles and boundary as gray squares *)
  let out :=
    for_loop (Z.to_nat MAP_HEIGHT) 0 (λ r out,
      for_loop (Z.to_nat MAP_WIDTH) 0 (λ c out,
        let cell := map_at (gs_map game) (Z.of_nat r) (Z.of_nat c) in
        if Ascii.eqb cell "#" || Ascii.eqb cell "X"
        then out ++ [DrawRectangle (int_mul (Z.of_nat c) SCREEN_SCALE)
                                   (int_mul (Z.of_nat r) SCREEN_SCALE)
                                   SCREEN_SCALE SCREEN_SCALE DARKGRAY]
        else out) out) out in
  (* projectiles *)
  let out :=
    for_loop MAX_PLAYERS 0 (λ i out,
      for_loop MAX_PROJECTILES 0 (λ j out,
        let p := projectile_of i j game in
        if p_active p
        then out ++ [DrawCircle
               (int_add (int_mul (p_x p) SCREEN_SCALE) (int_div SCREEN_SCALE 2))
               (int_add (int_mul (p_y p) SCREEN_SCALE) (int_div SCREEN_SCALE 2))
               shot_radius (side_color i)]
        else out) out) out in
  (* ships *)
  for_loop MAX_PLAYERS 0 (λ i out,
    if s_hp (ship_of i game) >? 0 then
      let shipColor := side_color i in
      let labelStr := side_label i in
      let shipSize := int_div SCREEN_SCALE 2 in
      let offset := int_sub SCREEN_SCALE shipSize in
      let cellX := int_mul (s_x (ship_of i game)) SCREEN_SCALE in
      let cellY := int_mul (s_y (ship_of i game)) SCREEN_SCALE in
      let out := out ++ [DrawRectangle (int_add cellX offset) (int_add cellY offset)
                           shipSize shipSize shipColor] in
      let out := out ++ [DrawText labelStr
                           (int_add (int_add cellX offset) (int_div shipSize 4))
                           (int_add (int_add cellY offset) (int_div shipSize 4))
                           (int_div shipSize 2) WHITE] in
      let hpStr := snprintf 16 ("HP:" +:+ string_of_int (s_hp (ship_of i game))) in
      out ++ [DrawText hpStr (int_add cellX offset)
                (int_sub (int_add cellY offset) 13) 14 BLACK]
    else out) out.
(** What each round of the three scene loops adds, and the three parts of
    the scene after the background as comprehensions over the loop indices. *)
Definition cell_cmds (game : GameState) (r c : nat) : list DrawCmd :=
  let cell := map_at (gs_map game) (Z.of_nat r) (Z.of_nat c) in
  if Ascii.eqb cell "#" || Ascii.eqb cell "X"
  then [DrawRectangle (int_mul (Z.of_nat c) SCREEN_SCALE)
                      (int_mul (Z.of_nat r) SCREEN_SCALE)
                      SCREEN_SCALE SCREEN_SCALE DARKGRAY]
  else [].

Definition slot_cmds (game : GameState) (i j : nat) : list DrawCmd :=
  let p := projectile_of i j game in
  if p_active p
  then [DrawCircle
          (int_add (int_mul (p_x p) SCREEN_SCALE) (int_div SCREEN_SCALE 2))
          (int_add (int_mul (p_y p) SCREEN_SCALE) (int_div SCREEN_SCALE 2))
          shot_radius (side_color i)]
  else [].

Definition ship_cmds (game : GameState) (i : nat) : list DrawCmd :=
  if s_hp (ship_of i game) >? 0 then
    let shipSize := int_div SCREEN_SCALE 2 in
    let offset := int_sub SCREEN_SCALE shipSize in
    let cellX := int_mul (s_x (ship_of i game)) SCREEN_SCALE in
    let cellY := int_mul (s_y (ship_of i game)) SCREEN_SCALE in
    [ DrawRectangle (int_add cellX offset) (int_add cellY offset)
        shipSize shipSize (side_color i);
      DrawText (side_label i)
        (int_add (int_add cellX offset) (int_div shipSize 4))
        (int_add (int_add cellY offset) (int_div shipSize 4))
        (int_div shipSize 2) WHITE;
      DrawText (snprintf 16 ("HP:" +:+ string_of_int (s_hp (ship_of i game))))
        (int_add cellX offset) (int_sub (int_add cellY offset) 13) 14 BLACK ]
  else [].

Definition terrain_scene (game : GameState) : list DrawCmd :=
  seq 0 (Z.to_nat MAP_HEIGHT) ≫= λ r,
  seq 0 (Z.to_nat MAP_WIDTH) ≫= λ c, cell_cmds game r c.

Definition shots_scene (game : GameState) : list DrawCmd :=
  seq 0 MAX_PLAYERS ≫= λ i, seq 0 MAX_PROJECTILES ≫= λ j, slot_cmds game i j.

Definition ships_scene (game : GameState) : list DrawCmd :=
  seq 0 MAX_PLAYERS ≫= λ i, ship_cmds game i.

(** The lines of the net across a span of [bound] pixels. *)
Definition net_count (bound : Z) : nat := Z.to_nat ((bound + 31) / 32).


(** The dimensions the C type [char map[MAP_HEIGHT][MAP_WIDTH]] fixes. *)
Definition map_dims (m : list (list ascii)) : Prop :=
  length m = Z.to_nat MAP_HEIGHT ∧
  Forall (λ row, length row = Z.to_nat MAP_WIDTH) m.

(** A state whose map is solid rock, before [InitMap] runs on it. *)
Definition rocks : GameState :=
  set_map (replicate (Z.to_nat MAP_HEIGHT)
             (replicate (Z.to_nat MAP_WIDTH) "X"%char)) zero_game.

(** * Part III: properties *)

(** ** Arithmetic and terrain *)

Lemma wrap_fits z : fits z → wrap z = z.
Proof.
  unfold fits, wrap, INT_MIN, INT_MAX. intros Hz.
  rewrite Z.mod_small; lia.
Qed.

Lemma int_add_fits a b : fits (a + b) → int_add a b = a + b.
Proof. apply wrap_fits. Qed.

Lemma int_dec_fits a : fits (a - 1) → int_dec a = a - 1.
Proof. apply wrap_fits. Qed.

Lemma blocked_false m cx cy :
  blocked m cx cy = false ↔ in_range cx cy ∧ classify m cx cy = Open.
Proof.
  unfold blocked, in_range, classify, MAP_WIDTH, MAP_HEIGHT.
  destruct (Ascii.eqb (map_at m cy cx) "#"), (Ascii.eqb (map_at m cy cx) "X");
    rewrite ?orb_true_r, ?orb_false_r;
    try (split; [done | by intros [_ ?]]).
  rewrite !orb_false_iff, !Z.geb_leb, !Z.ltb_ge, !Z.leb_gt.
  intuition lia.
Qed.

Lemma blocked_true m cx cy : blocked m cx cy = true ↔ is_blocking m cx cy.
Proof.
  unfold is_blocking. split.
  - intros Hb. destruct (classify m cx cy) eqn:Hc; auto.
    left. intros Hr. assert (blocked m cx cy = false) by by apply blocked_false.
    congruence.
  - intros Hb. destruct (blocked m cx cy) eqn:E; [done|].
    apply blocked_false in E as [Hr Hc]. rewrite Hc in Hb.
    destruct Hb as [?|[?|?]]; done.
Qed.

(** ** Shape of a well-formed state *)

Lemma wf_players g :
  wf g → ∃ pa pb, gs_players g = [pa; pb].
Proof.
  intros [Hl _]. destruct (gs_players g) as [|pa [|pb [|? ?]]]; try done.
  by exists pa, pb.
Qed.

Lemma len5 {A} (l : list A) :
  length l = MAX_PROJECTILES → ∃ a b c d e, l = [a; b; c; d; e].
Proof.
  destruct l as [|a [|b [|c [|d [|e [|? ?]]]]]]; try done.
  intros _. by exists a, b, c, d, e.
Qed.

(** Replaces a well-formed [g] by its explicit two-by-five layout. *)
Ltac layout g Hwf :=
  let pa := fresh "pa" in let pb := fresh "pb" in
  let Hp := fresh "Hp" in let Hl := fresh "Hl" in let Hf := fresh "Hf" in
  let Ha := fresh "Ha" in let Hb := fresh "Hb" in
  destruct (wf_players g Hwf) as (pa & pb & Hp);
  destruct Hwf as [Hl Hf]; rewrite Hp in Hf;
  apply Forall_cons in Hf as [Ha Hf]; apply Forall_cons in Hf as [Hb _];
  apply len5 in Ha as (? & ? & ? & ? & ? & Ha);
  apply len5 in Hb as (? & ? & ? & ? & ? & Hb);
  destruct g as [pls go m]; simpl in Hp; subst pls;
  destruct pa as [na [xa ya ha vxa vya psa]];
  destruct pb as [nb [xb yb hb vxb vyb psb]];
  simpl in Ha, Hb; subst psa psb; clear Hl.

Lemma UpdateProjectiles_layout na xa ya ha vxa vya a0 a1 a2 a3 a4
    nb xb yb hb vxb vyb b0 b1 b2 b3 b4 go m :
  UpdateProjectiles
    (mkGameState
       [mkPlayer na (mkShip xa ya ha vxa vya [a0; a1; a2; a3; a4]);
        mkPlayer nb (mkShip xb yb hb vxb vyb [b0; b1; b2; b3; b4])] go m)
  = mkGameState
       [mkPlayer na (mkShip xa ya ha vxa vya
          [advance m a0; advance m a1; advance m a2; advance m a3; advance m a4]);
        mkPlayer nb (mkShip xb yb hb vxb vyb
          [advance m b0; advance m b1; advance m b2; advance m b3; advance m b4])]
       go m.
Proof. reflexivity. Qed.

Lemma UpdateProjectiles_fmap g :
  wf g →
  UpdateProjectiles g =
  set_players
    ((λ pl, set_ship (set_projectiles
        (advance (gs_map g) <$> s_projectiles (pl_ship pl)) (pl_ship pl)) pl)
      <$> gs_players g) g.
Proof. intros Hwf. layout g Hwf. reflexivity. Qed.

(** ** In-place updates commute and compose *)

Lemma alter_alter {A} (f h : A → A) i (l : list A) :
  alter f i (alter h i l) = alter (f ∘ h) i l.
Proof. revert i. induction l; intros [|?]; f_equal/=; auto. Qed.

Lemma alter_swap {A} (f h : A → A) i j (l : list A) :
  i ≠ j → alter f i (alter h j l) = alter h j (alter f i l).
Proof.
  revert i j. induction l; intros [|?] [|?] ?; f_equal/=; auto with lia.
Qed.

Lemma upd_ship_id i g : upd_ship i id g = g.
Proof.
  destruct g as [pls go m]. unfold upd_ship, set_players. simpl. f_equal.
  apply list_alter_id. by intros [].
Qed.

Lemma upd_ship_compose i f h g :
  upd_ship i f (upd_ship i h g) = upd_ship i (f ∘ h) g.
Proof.
  unfold upd_ship, set_players. simpl. f_equal. by rewrite alter_alter.
Qed.

Lemma upd_ship_swap i j f h g :
  i ≠ j → upd_ship i f (upd_ship j h g) = upd_ship j h (upd_ship i f g).
Proof.
  intros Hij. unfold upd_ship, set_players. simpl. f_equal.
  by apply alter_swap.
Qed.

Lemma upd_ship_ext i f h g :
  (∀ s, f s = h s) → upd_ship i f g = upd_ship i h g.
Proof.
  intros Hfh. unfold upd_ship, set_players. f_equal.
  apply list_alter_ext; [|done]. intros pl _. by rewrite Hfh.
Qed.

Lemma upd_ship_if (c : bool) i f g :
  (if c then upd_ship i f g else g) = upd_ship i (if c then f else id) g.
Proof. destruct c; [done|]. by rewrite upd_ship_id. Qed.

Lemma gs_map_upd_ship i f g : gs_map (upd_ship i f g) = gs_map g.
Proof. reflexivity. Qed.

Lemma length_upd_ship i f g :
  length (gs_players (upd_ship i f g)) = length (gs_players g).
Proof. unfold upd_ship. simpl. apply length_alter. Qed.

Lemma ship_of_upd_ship i f g :
  (i < length (gs_players g))%nat →
  ship_of i (upd_ship i f g) = f (ship_of i g).
Proof.
  intros Hi. unfold ship_of, upd_ship. simpl.
  by rewrite list_lookup_total_alter_eq.
Qed.

Lemma ship_of_upd_ship_ne i j f g :
  i ≠ j → ship_of j (upd_ship i f g) = ship_of j g.
Proof.
  intros Hij. unfold ship_of, upd_ship. simpl.
  by rewrite list_lookup_total_alter_ne.
Qed.

(** ** UpdateShips, ship by ship *)

Lemma UpdateShips_fmap g :
  length (gs_players g) = MAX_PLAYERS →
  UpdateShips g =
  mkGameState
    ((λ pl, set_ship (move_ship (gs_map g) (pl_ship pl)) pl) <$> gs_players g)
    (gs_gameOver g || existsb (λ pl, wrecked (gs_map g) (pl_ship pl)) (gs_players g))
    (gs_map g).
Proof.
  destruct g as [pls go m]. simpl.
  destruct pls as [|[na sa] [|[nb sb] [|? ?]]]; try done. intros _.
  unfold UpdateShips, MAX_PLAYERS, for_loop, UpdateShips_body, move_ship,
    wrecked, upd_ship, ship_of, set_gameOver, set_players. cbn.
  destruct (blocked m (int_add (s_x sa) (s_vx sa)) (int_add (s_y sa) (s_vy sa)));
    [destruct (int_dec (s_hp sa) <=? 0)|]; cbn;
    (destruct (blocked m (int_add (s_x sb) (s_vx sb)) (int_add (s_y sb) (s_vy sb)));
      [destruct (int_dec (s_hp sb) <=? 0)|]); cbn;
    rewrite ?orb_true_r, ?orb_false_r; reflexivity.
Qed.

Lemma ship_of_UpdateShips g i :
  length (gs_players g) = MAX_PLAYERS → (i < MAX_PLAYERS)%nat →
  ship_of i (UpdateShips g) = move_ship (gs_map g) (ship_of i g).
Proof.
  intros Hl Hi. rewrite UpdateShips_fmap by done.
  destruct g as [pls go m]. simpl in *.
  destruct pls as [|pa [|pb [|? ?]]]; try done.
  destruct i as [|[|i]]; [done | done | unfold MAX_PLAYERS in Hi; lia].
Qed.

(** ** Firing *)

Lemma projectile_of_upd_ship_ne i j k f g :
  i ≠ j → projectile_of j k (upd_ship i f g) = projectile_of j k g.
Proof. intros Hij. unfold projectile_of. by rewrite ship_of_upd_ship_ne. Qed.

Lemma fire_from_upd_other n i pl j h g :
  j ≠ pl →
  fire_from n i pl (upd_ship j h g) = upd_ship j h (fire_from n i pl g).
Proof.
  intros Hj. revert i. induction n as [|n IH]; intros i; simpl; [done|].
  rewrite projectile_of_upd_ship_ne, ship_of_upd_ship_ne by done.
  destruct (p_active (projectile_of pl i g)); simpl; [apply IH|].
  unfold upd_projectile. by rewrite upd_ship_swap.
Qed.

Lemma fire_upd_other pl j h g :
  j ≠ pl → fire pl (upd_ship j h g) = upd_ship j h (fire pl g).
Proof. apply fire_from_upd_other. Qed.

Lemma fire_eq pl g :
  wf g → (pl < MAX_PLAYERS)%nat →
  fire pl g =
  match first_free (s_projectiles (ship_of pl g)) with
  | Some i => upd_projectile pl i (λ _, shot (ship_of pl g)) g
  | None => g
  end.
Proof.
  intros Hwf Hpl. layout g Hwf.
  destruct pl as [|[|pl]]; [| |unfold MAX_PLAYERS in Hpl; lia];
    unfold fire, MAX_PROJECTILES, shot; cbn.
  all: repeat match goal with
    | |- context [p_active ?p] => destruct (p_active p); cbn
    end; reflexivity.
Qed.

Lemma first_free_Some ps i :
  first_free ps = Some i ↔
  (i < length ps)%nat ∧ p_active (ps !!! i) = false ∧
  ∀ k, (k < i)%nat → p_active (ps !!! k) = true.
Proof.
  revert i. induction ps as [|p ps IH]; intros i; simpl.
  - split; [done|]. intros [? _]. lia.
  - destruct (p_active p) eqn:Hp.
    + destruct i as [|i].
      * split; [by destruct (first_free ps)|]. cbn. intros (_ & ? & _). congruence.
      * rewrite fmap_Some. split.
        -- intros (i' & Hi' & [= ->]). apply IH in Hi' as (? & ? & Hk).
           cbn. repeat split; [lia|done|]. intros [|k] ?; [done|]. apply Hk. lia.
        -- cbn. intros (? & ? & Hk). exists i. split; [|done]. apply IH.
           repeat split; [lia|done|]. intros k ?. apply (Hk (Datatypes.S k)). lia.
    + split.
      * intros [= <-]. cbn. repeat split; [lia|done|]. intros; lia.
      * intros (_ & _ & Hk). destruct i as [|i]; [done|].
        specialize (Hk 0%nat). cbn in Hk. rewrite Hk in Hp; [done|lia].
Qed.

Lemma first_free_None ps :
  first_free ps = None ↔ ∀ k, (k < length ps)%nat → p_active (ps !!! k) = true.
Proof.
  induction ps as [|p ps IH]; simpl.
  - split; [intros; lia|done].
  - destruct (p_active p) eqn:Hp.
    + rewrite fmap_None, IH. split.
      * intros H [|k] ?; cbn; [done|]. apply H. lia.
      * intros H k ?. apply (H (Datatypes.S k)). lia.
    + split; [done|]. intros H. specialize (H 0%nat). cbn in H.
      rewrite H in Hp; [done|lia].
Qed.

(** ** HandleInput, player by player *)

Lemma poll_axes (w s a d : bool) (sh : Ship) :
  ((if d then set_vx MAX_SPEED else id) ∘ (if a then set_vx (- MAX_SPEED) else id) ∘
   (if s then set_vy MAX_SPEED else id) ∘ (if w then set_vy (- MAX_SPEED) else id) ∘
   set_vy 0 ∘ set_vx 0) sh
  = set_vel (axis a d) (axis w s) sh.
Proof. destruct sh, w, s, a, d; reflexivity. Qed.

Lemma HandleInput_eq kb g :
  HandleInput kb g =
  let g := upd_ship 0 (set_vel (axis (IsKeyDown kb KEY_A) (IsKeyDown kb KEY_D))
                               (axis (IsKeyDown kb KEY_W) (IsKeyDown kb KEY_S))) g in
  let g := if IsKeyPressed kb KEY_LEFT_SHIFT then fire 0 g else g in
  let g := upd_ship 1 (set_vel (axis (IsKeyDown kb KEY_LEFT) (IsKeyDown kb KEY_RIGHT))
                               (axis (IsKeyDown kb KEY_UP) (IsKeyDown kb KEY_DOWN))) g in
  if IsKeyPressed kb KEY_RIGHT_SHIFT then fire 1 g else g.
Proof.
  unfold HandleInput. cbv zeta. rewrite !upd_ship_if.
  rewrite !(upd_ship_swap 0 1) by done.
  rewrite !upd_ship_compose.
  assert (Hf : ∀ h x, (if IsKeyPressed kb KEY_LEFT_SHIFT
                       then fire 0 (upd_ship 1 h x) else upd_ship 1 h x)
     = upd_ship 1 h (if IsKeyPressed kb KEY_LEFT_SHIFT then fire 0 x else x)).
  { intros h x. destruct (IsKeyPressed kb KEY_LEFT_SHIFT); [|done].
    by apply fire_upd_other. }
  rewrite Hf, upd_ship_compose.
  erewrite (upd_ship_ext 0) by (intros s; apply poll_axes).
  erewrite (upd_ship_ext 1) by (intros s; apply poll_axes).
  reflexivity.
Qed.

(** ** The containment invariant *)

(** Steps that keep one ship, or one projectile, on open water of a fixed
    terrain [m]. *)
Section OnOneMap.
Context (m : list (list ascii)).

Lemma ship_inv_set_vel vx vy s : ship_inv m s → ship_inv m (set_vel vx vy s).
Proof. by intros (? & ? & ?). Qed.

Lemma ship_inv_set_hp h s : ship_inv m s → ship_inv m (set_hp h s).
Proof. by intros (? & ? & ?). Qed.

Lemma ship_inv_alter f j s :
  (∀ p, proj_ok m p → proj_ok m (f p)) →
  ship_inv m s → ship_inv m (set_projectiles (alter f j (s_projectiles s)) s).
Proof.
  intros Hf (? & ? & Hps). split; [done|].
  unfold set_projectiles; cbn [s_projectiles]. split.
  - by rewrite length_alter.
  - apply Forall_alter; [done|]. intros p _. apply Hf.
Qed.

Lemma proj_ok_set_active_false p : proj_ok m (set_active false p).
Proof. intros H. discriminate H. Qed.

Lemma proj_ok_advance p : proj_ok m (advance m p).
Proof.
  unfold advance. destruct (p_active p) eqn:Ha.
  - destruct (blocked m _ _) eqn:Hb.
    + apply proj_ok_set_active_false.
    + intros _. simpl. by apply blocked_false.
  - intros H. congruence.
Qed.

Lemma ship_inv_move s : ship_inv m s → ship_inv m (move_ship m s).
Proof.
  intros Hs. unfold move_ship. destruct (blocked m _ _) eqn:Hb.
  - by apply ship_inv_set_hp.
  - destruct Hs as (_ & ? & ?). split; [|done].
    by apply blocked_false in Hb.
Qed.

End OnOneMap.

Lemma Inv_wf g : Inv g → wf g.
Proof.
  intros [Hl Hf]. split; [done|].
  eapply Forall_impl; [exact Hf|]. by intros pl (_ & ? & _).
Qed.

Lemma Inv_ship_of g i :
  Inv g → (i < MAX_PLAYERS)%nat → ship_inv (gs_map g) (ship_of i g).
Proof.
  intros [Hl Hf] Hi. unfold ship_of.
  apply (Forall_lookup_total_1 (λ pl, ship_inv (gs_map g) (pl_ship pl))); [done|lia].
Qed.

Lemma Inv_upd_ship i f g :
  Inv g →
  (∀ s, ship_inv (gs_map g) s → ship_inv (gs_map g) (f s)) →
  Inv (upd_ship i f g).
Proof.
  intros [Hl Hf] Hs. split.
  - by rewrite length_upd_ship.
  - unfold upd_ship. simpl. apply Forall_alter; [done|].
    intros pl _ Hpl. simpl. by apply Hs.
Qed.

Lemma Inv_set_gameOver b g : Inv g → Inv (set_gameOver b g).
Proof. by intros [? ?]. Qed.

Lemma Inv_upd_projectile i j f g :
  Inv g →
  (∀ p, proj_ok (gs_map g) p → proj_ok (gs_map g) (f p)) →
  Inv (upd_projectile i j f g).
Proof.
  intros HI Hf. apply Inv_upd_ship; [done|].
  intros s. by apply ship_inv_alter.
Qed.

Lemma Inv_fire pl g : Inv g → (pl < MAX_PLAYERS)%nat → Inv (fire pl g).
Proof.
  intros HI Hpl. rewrite fire_eq by auto using Inv_wf.
  destruct (first_free _) as [i|]; [|done].
  apply Inv_upd_projectile; [done|]. intros _ _ _.
  by destruct (Inv_ship_of g pl HI Hpl) as (? & _).
Qed.

Lemma Inv_HandleInput kb g : Inv g → Inv (HandleInput kb g).
Proof.
  intros HI. rewrite HandleInput_eq. cbv zeta.
  assert (H0 : Inv (upd_ship 0
     (set_vel (axis (IsKeyDown kb KEY_A) (IsKeyDown kb KEY_D))
              (axis (IsKeyDown kb KEY_W) (IsKeyDown kb KEY_S))) g)).
  { apply Inv_upd_ship; [done|]. intros s. apply ship_inv_set_vel. }
  set (g0 := upd_ship 0 _ g) in *.
  assert (H1 : Inv (if IsKeyPressed kb KEY_LEFT_SHIFT then fire 0 g0 else g0)).
  { destruct (IsKeyPressed kb KEY_LEFT_SHIFT); [|done].
    apply Inv_fire; [done|]. unfold MAX_PLAYERS; lia. }
  set (g1 := if IsKeyPressed kb KEY_LEFT_SHIFT then _ else _) in *.
  assert (H2 : Inv (upd_ship 1
     (set_vel (axis (IsKeyDown kb KEY_LEFT) (IsKeyDown kb KEY_RIGHT))
              (axis (IsKeyDown kb KEY_UP) (IsKeyDown kb KEY_DOWN))) g1)).
  { apply Inv_upd_ship; [done|]. intros s. apply ship_inv_set_vel. }
  destruct (IsKeyPressed kb KEY_RIGHT_SHIFT); [|done].
  apply Inv_fire; [done|]. unfold MAX_PLAYERS; lia.
Qed.

Lemma Inv_UpdateShips g : Inv g → Inv (UpdateShips g).
Proof.
  intros [Hl Hf]. rewrite UpdateShips_fmap by done.
  split; cbn [gs_players gs_map].
  - by rewrite length_fmap.
  - apply Forall_fmap. eapply Forall_impl; [exact Hf|].
    intros pl Hpl. by apply ship_inv_move.
Qed.

Lemma Inv_UpdateProjectiles g : Inv g → Inv (UpdateProjectiles g).
Proof.
  intros HI. rewrite UpdateProjectiles_fmap by by apply Inv_wf.
  destruct HI as [Hl Hf].
  split; unfold set_players; cbn [gs_players gs_map].
  - by rewrite length_fmap.
  - apply Forall_fmap. eapply Forall_impl; [exact Hf|].
    intros pl (? & ? & ?). split; [done|].
    unfold compose, set_ship, set_projectiles; cbn [pl_ship s_projectiles].
    split.
    + by rewrite length_fmap.
    + apply Forall_fmap, Forall_forall. intros p _. apply proj_ok_advance.
Qed.

Lemma for_ret_invariant (P : GameState → Prop) body :
  (∀ i g, P g → ctl_holds P (body i g)) →
  ∀ n i g, P g → ctl_holds P (for_ret n i body g).
Proof.
  intros Hbody. induction n as [|n IH]; intros i g Hg; simpl; [done|].
  specialize (Hbody i g Hg). destruct (body i g) as [g'|g']; simpl in *; auto.
Qed.

Lemma Inv_CheckHits_body a b i g :
  Inv g → ctl_holds Inv (CheckHits_body a b i g).
Proof.
  intros HI. unfold CheckHits_body.
  destruct (_ && _); [|done].
  assert (Inv (upd_projectile a i (set_active false)
                 (upd_ship b (λ s, set_hp (int_dec (s_hp s)) s) g))) as HI'.
  { apply Inv_upd_projectile.
    - apply Inv_upd_ship; [done|]. intros s. apply ship_inv_set_hp.
    - intros p _. apply proj_ok_set_active_false. }
  destruct (_ <=? 0); simpl; [by apply Inv_set_gameOver|done].
Qed.

Lemma Inv_CheckHits g : Inv g → Inv (CheckHits g).
Proof.
  intros HI. unfold CheckHits.
  destruct (_ && _); [by apply Inv_set_gameOver|].
  pose proof (for_ret_invariant Inv (CheckHits_body 0 1)
    (Inv_CheckHits_body 0 1) MAX_PROJECTILES 0 g HI) as HA.
  destruct (for_ret _ _ (CheckHits_body 0 1) g) as [g1|g1]; simpl in HA; [|done].
  pose proof (for_ret_invariant Inv (CheckHits_body 1 0)
    (Inv_CheckHits_body 1 0) MAX_PROJECTILES 0 g1 HA) as HB.
  by destruct (for_ret _ _ (CheckHits_body 1 0) g1).
Qed.

Create HintDb containment.
#[local] Hint Resolve Inv_HandleInput Inv_UpdateShips Inv_UpdateProjectiles
  Inv_CheckHits : containment.

Lemma Inv_Step kb g : Inv g → Inv (Step kb g).
Proof.
  intros HI. unfold Step. destruct (gs_gameOver g); cbn [negb];
    auto with containment.
Qed.

Lemma Inv_run kbs g : Inv g → Inv (run kbs g).
Proof.
  revert g. induction kbs as [|kb kbs IH]; intros g HI; simpl; [done|].
  by apply IH, Inv_Step.
Qed.

Lemma Inv_InitGame : Inv InitGame.
Proof.
  split; [reflexivity|].
  repeat constructor; try (vm_compute; congruence); try discriminate.
Qed.

(** ** The map is never written after [InitMap] *)

Lemma gs_map_fire_from n i pl g : gs_map (fire_from n i pl g) = gs_map g.
Proof.
  revert i. induction n as [|n IH]; intros i; simpl; [done|].
  destruct (p_active _); simpl; [apply IH|done].
Qed.

Lemma gs_map_HandleInput kb g : gs_map (HandleInput kb g) = gs_map g.
Proof.
  rewrite HandleInput_eq. cbv zeta.
  repeat match goal with
    | |- context [if ?c then _ else _] => destruct c
    end;
    unfold fire;
    repeat (rewrite gs_map_fire_from || rewrite gs_map_upd_ship); reflexivity.
Qed.

Lemma gs_map_CheckHits g : gs_map (CheckHits g) = gs_map g.
Proof.
  assert (Hbody : ∀ a b i g', gs_map g' = gs_map g →
            ctl_holds (λ g'', gs_map g'' = gs_map g) (CheckHits_body a b i g')).
  { intros a b i g' Hg'. unfold CheckHits_body.
    destruct (_ && _); [|done]. by destruct (_ <=? 0). }
  unfold CheckHits. destruct (_ && _); [done|].
  pose proof (for_ret_invariant _ _ (Hbody 0%nat 1%nat) MAX_PROJECTILES 0%nat g eq_refl) as HA.
  destruct (for_ret _ _ (CheckHits_body 0 1) g) as [g1|g1]; simpl in HA; [|done].
  pose proof (for_ret_invariant _ _ (Hbody 1%nat 0%nat) MAX_PROJECTILES 0%nat g1 HA) as HB.
  by destruct (for_ret _ _ (CheckHits_body 1 0) g1).
Qed.

Lemma gs_map_UpdateShips g :
  length (gs_players g) = MAX_PLAYERS → gs_map (UpdateShips g) = gs_map g.
Proof. intros Hl. by rewrite UpdateShips_fmap. Qed.

Lemma gs_map_UpdateProjectiles g :
  wf g → gs_map (UpdateProjectiles g) = gs_map g.
Proof. intros Hwf. by rewrite UpdateProjectiles_fmap. Qed.

Lemma gs_map_Step kb g : Inv g → gs_map (Step kb g) = gs_map g.
Proof.
  intros HI. unfold Step. destruct (gs_gameOver g); cbn [negb]; [done|].
  pose proof (Inv_HandleInput kb g HI) as H1.
  pose proof (Inv_UpdateShips _ H1) as H2.
  rewrite gs_map_CheckHits, gs_map_UpdateProjectiles by by apply Inv_wf.
  rewrite gs_map_UpdateShips by by destruct H1.
  apply gs_map_HandleInput.
Qed.

Lemma gs_map_run kbs g : Inv g → gs_map (run kbs g) = gs_map g.
Proof.
  revert g. induction kbs as [|kb kbs IH]; intros g HI; simpl; [done|].
  rewrite IH by by apply Inv_Step. by apply gs_map_Step.
Qed.

(** ** One ship through HandleInput *)

Lemma wf_upd_ship i f g :
  (∀ s, length (s_projectiles (f s)) = length (s_projectiles s)) →
  wf g → wf (upd_ship i f g).
Proof.
  intros Hf [Hl Hps]. split.
  - by rewrite length_upd_ship.
  - unfold upd_ship, set_players; cbn [gs_players]. apply Forall_alter; [done|].
    intros pl _ Hpl. unfold set_ship; cbn [pl_ship]. by rewrite Hf.
Qed.

Lemma wf_ship_of g i :
  wf g → (i < MAX_PLAYERS)%nat →
  length (s_projectiles (ship_of i g)) = MAX_PROJECTILES.
Proof.
  intros [Hl Hps] Hi. unfold ship_of.
  apply (Forall_lookup_total_1
    (λ pl, length (s_projectiles (pl_ship pl)) = MAX_PROJECTILES)); [done|lia].
Qed.

Lemma ship_of_fire_from_ne n i pl j g :
  j ≠ pl → ship_of j (fire_from n i pl g) = ship_of j g.
Proof.
  intros Hj. revert i. induction n as [|n IH]; intros i; simpl; [done|].
  destruct (p_active _); simpl; [apply IH|].
  unfold upd_projectile. by rewrite ship_of_upd_ship_ne.
Qed.

Lemma ship_of_fire_ne pl j g : j ≠ pl → ship_of j (fire pl g) = ship_of j g.
Proof. apply ship_of_fire_from_ne. Qed.

Lemma ship_of_fire pl g :
  wf g → (pl < MAX_PLAYERS)%nat →
  ship_of pl (fire pl g) = fire_ship (ship_of pl g).
Proof.
  intros Hwf Hpl. rewrite fire_eq by done. unfold fire_ship.
  destruct (first_free _) as [i|]; [|done].
  unfold upd_projectile. rewrite ship_of_upd_ship by (destruct Hwf; lia).
  by rewrite list_insert_alter.
Qed.

Lemma wf_fire pl g : wf g → (pl < MAX_PLAYERS)%nat → wf (fire pl g).
Proof.
  intros Hwf Hpl. rewrite fire_eq by done.
  destruct (first_free _) as [i|]; [|done].
  apply wf_upd_ship; [|done]. intros s. cbn. apply length_alter.
Qed.

Lemma ship_of_HandleInput kb g pl :
  wf g → (pl < MAX_PLAYERS)%nat →
  ship_of pl (HandleInput kb g) =
  let s := set_vel (intent_vx kb pl) (intent_vy kb pl) (ship_of pl g) in
  if IsKeyPressed kb (trigger pl) then fire_ship s else s.
Proof.
  intros Hwf Hpl. rewrite HandleInput_eq. cbv zeta.
  assert (H2 : (0 < MAX_PLAYERS)%nat ∧ (1 < MAX_PLAYERS)%nat)
    by (unfold MAX_PLAYERS; lia).
  destruct H2 as [H0 H1].
  assert (Hl : length (gs_players g) = MAX_PLAYERS) by by destruct Hwf.
  set (g0 := upd_ship 0 _ g).
  assert (Hwf0 : wf g0) by (apply wf_upd_ship; [by intros []|done]).
  set (g1 := if IsKeyPressed kb KEY_LEFT_SHIFT then fire 0 g0 else g0).
  assert (Hwf1 : wf g1).
  { subst g1. destruct (IsKeyPressed kb KEY_LEFT_SHIFT); [|done]. by apply wf_fire. }
  set (g2 := upd_ship 1 _ g1).
  assert (Hwf2 : wf g2) by (apply wf_upd_ship; [by intros []|done]).
  destruct pl as [|[|pl]]; [| |unfold MAX_PLAYERS in Hpl; lia].
  - (* player 0: untouched by everything after its own trigger *)
    assert (ship_of 0 g2 = ship_of 0 g1) as E2
      by (subst g2; by rewrite ship_of_upd_ship_ne).
    assert (ship_of 0 (if IsKeyPressed kb KEY_RIGHT_SHIFT then fire 1 g2 else g2)
            = ship_of 0 g1) as ->.
    { destruct (IsKeyPressed kb KEY_RIGHT_SHIFT); [|done].
      by rewrite ship_of_fire_ne. }
    subst g1. cbn [trigger].
    assert (ship_of 0 g0 = set_vel (intent_vx kb 0) (intent_vy kb 0) (ship_of 0 g))
      as E0 by (subst g0; rewrite ship_of_upd_ship by lia; reflexivity).
    destruct (IsKeyPressed kb KEY_LEFT_SHIFT); [|done].
    by rewrite ship_of_fire, E0.
  - (* player 1: untouched by player 0's half *)
    assert (ship_of 1 g1 = ship_of 1 g) as E1.
    { subst g1. destruct (IsKeyPressed kb KEY_LEFT_SHIFT).
      - rewrite ship_of_fire_ne by done. subst g0. by rewrite ship_of_upd_ship_ne.
      - subst g0. by rewrite ship_of_upd_ship_ne. }
    assert (ship_of 1 g2 = set_vel (intent_vx kb 1) (intent_vy kb 1) (ship_of 1 g))
      as E2.
    { subst g2. rewrite ship_of_upd_ship by (destruct Hwf1; lia). by rewrite E1. }
    cbn [trigger]. destruct (IsKeyPressed kb KEY_RIGHT_SHIFT); [|done].
    by rewrite ship_of_fire, E2.
Qed.

Lemma wf_HandleInput kb g : wf g → wf (HandleInput kb g).
Proof.
  intros Hwf. rewrite HandleInput_eq. cbv zeta.
  assert (H2 : (0 < MAX_PLAYERS)%nat ∧ (1 < MAX_PLAYERS)%nat)
    by (unfold MAX_PLAYERS; lia).
  destruct H2 as [H0 H1].
  set (g0 := upd_ship 0 _ g).
  assert (Hwf0 : wf g0) by (apply wf_upd_ship; [by intros []|done]).
  set (g1 := if IsKeyPressed kb KEY_LEFT_SHIFT then fire 0 g0 else g0).
  assert (Hwf1 : wf g1).
  { subst g1. destruct (IsKeyPressed kb KEY_LEFT_SHIFT); [|done]. by apply wf_fire. }
  set (g2 := upd_ship 1 _ g1).
  assert (Hwf2 : wf g2) by (apply wf_upd_ship; [by intros []|done]).
  destruct (IsKeyPressed kb KEY_RIGHT_SHIFT); [|done]. by apply wf_fire.
Qed.

Lemma projectile_of_UpdateShips g i j :
  length (gs_players g) = MAX_PLAYERS → (i < MAX_PLAYERS)%nat →
  projectile_of i j (UpdateShips g) = projectile_of i j g.
Proof.
  intros Hl Hi. unfold projectile_of. rewrite ship_of_UpdateShips by done.
  unfold move_ship. by destruct (blocked _ _ _).
Qed.

Lemma projectile_of_UpdateProjectiles g i j :
  wf g → (i < MAX_PLAYERS)%nat → (j < MAX_PROJECTILES)%nat →
  projectile_of i j (UpdateProjectiles g) = advance (gs_map g) (projectile_of i j g).
Proof.
  intros Hwf Hi Hj. layout g Hwf. rewrite UpdateProjectiles_layout.
  unfold MAX_PLAYERS in Hi. unfold MAX_PROJECTILES in Hj.
  destruct i as [|[|i]]; [| |lia];
    (destruct j as [|[|[|[|[|j]]]]]; [reflexivity..|lia]).
Qed.

(** * The claims *)

(** Splits a conjunction of closed equations and evaluates each side. *)
Ltac evaluate :=
  repeat match goal with |- _ ∧ _ => split end;
  vm_compute; reflexivity.

(** ** C3: initial placement *)

(** C3, as amended: at initialization on the 20x10 bordered grid, ship A is
    at (2,2) with health 3 and ship B is at (MAP_WIDTH-2, MAP_HEIGHT-2), that
    is (18,8), with health 3; both pools are idle and the game is not over. *)
Theorem InitGame_placement :
  gs_map InitGame = bay ∧
  ship_of 0 InitGame = mkShip 2 2 3 0 0 (replicate MAX_PROJECTILES idle) ∧
  ship_of 1 InitGame =
    mkShip (MAP_WIDTH - 2) (MAP_HEIGHT - 2) 3 0 0 (replicate MAX_PROJECTILES idle) ∧
  (MAP_WIDTH - 2, MAP_HEIGHT - 2) = (18, 8) ∧
  length (gs_players InitGame) = MAX_PLAYERS ∧
  gs_gameOver InitGame = false.
Proof.
  split; [|split; [|split]].
  - vm_compute. reflexivity.
  - vm_compute. reflexivity.
  - vm_compute. reflexivity.
  - evaluate.
Qed.

(** C3 as stated fails: ship B does not start at (17,7) but at (18,8). *)
Lemma InitGame_shipB_not_17_7 :
  (s_x (ship_of 1 InitGame), s_y (ship_of 1 InitGame)) = (18, 8) ∧
  ((s_x (ship_of 1 InitGame) =? 17) && (s_y (ship_of 1 InitGame) =? 7)) = false.
Proof. evaluate. Qed.

(** ** C4: terminal freeze *)

(** C4: once [gameOver] is set, a further Step returns the state unchanged:
    both ships (positions, healths, velocities), every projectile slot, the
    flag and the map are the same. *)
Theorem Step_frozen kb g :
  gs_gameOver g = true → Step kb g = g.
Proof.
  intros Hover. unfold Step. rewrite Hover. cbn [negb]. reflexivity.
Qed.

(** ** C5: ships stay on open water *)

(** C5: after any number of Steps from the initial state, under any keyboard
    readings, each of the two ships is inside the map on an Open cell of the
    (unchanged) terrain. *)
Theorem ships_stay_on_open_cells kbs :
  let g := run kbs InitGame in
  gs_map g = bay ∧
  (in_range (s_x (ship_of 0 g)) (s_y (ship_of 0 g)) ∧
   classify (gs_map g) (s_x (ship_of 0 g)) (s_y (ship_of 0 g)) = Open) ∧
  (in_range (s_x (ship_of 1 g)) (s_y (ship_of 1 g)) ∧
   classify (gs_map g) (s_x (ship_of 1 g)) (s_y (ship_of 1 g)) = Open).
Proof.
  intros g. subst g.
  pose proof (Inv_run kbs InitGame Inv_InitGame) as HI.
  split; [|split].
  - rewrite gs_map_run by apply Inv_InitGame. by vm_compute.
  - apply (Inv_ship_of _ 0%nat HI). unfold MAX_PLAYERS; lia.
  - apply (Inv_ship_of _ 1%nat HI). unfold MAX_PLAYERS; lia.
Qed.

(** ** C9: active projectiles stay on open water *)

(** C9: after any number of Steps from the initial state, every active
    projectile of either ship is inside the map on an Open cell. *)
Theorem active_projectiles_on_open_cells kbs i j :
  (i < MAX_PLAYERS)%nat → (j < MAX_PROJECTILES)%nat →
  let g := run kbs InitGame in
  let p := projectile_of i j g in
  p_active p = true →
  in_range (p_x p) (p_y p) ∧ classify (gs_map g) (p_x p) (p_y p) = Open.
Proof.
  intros Hi Hj g p Hact. subst g p.
  pose proof (Inv_run kbs InitGame Inv_InitGame) as HI.
  destruct (Inv_ship_of _ i HI Hi) as (_ & Hlen & Hps).
  unfold projectile_of in *.
  eapply (Forall_lookup_total_1 (proj_ok _)) in Hps; [by apply Hps|].
  rewrite Hlen. exact Hj.
Qed.

Lemma active_projectiles_on_open_cells_witness :
  (0 < MAX_PLAYERS)%nat ∧ (0 < MAX_PROJECTILES)%nat ∧
  projectile_of 0 0 (run [kb_fire_up] InitGame) = mkProjectile 2 1 0 (-1) true ∧
  (in_range 2 1 ∧ classify (gs_map (run [kb_fire_up] InitGame)) 2 1 = Open).
Proof.
  assert (H0 : (0 < MAX_PLAYERS)%nat) by (unfold MAX_PLAYERS; lia).
  assert (H1 : (0 < MAX_PROJECTILES)%nat) by (unfold MAX_PROJECTILES; lia).
  assert (Hp : projectile_of 0 0 (run [kb_fire_up] InitGame)
               = mkProjectile 2 1 0 (-1) true) by (vm_compute; reflexivity).
  split; [exact H0|]. split; [exact H1|]. split; [exact Hp|].
  pose proof (active_projectiles_on_open_cells [kb_fire_up] 0 0 H0 H1) as H.
  cbv zeta in H. rewrite Hp in H. apply H. reflexivity.
Defined.

(** ** C6: collision damage *)

(** C6: for either ship, with target = position + velocity: when the target
    is blocking (out of range, Wall or Obstacle) [UpdateShips] takes exactly 1
    from the ship's health and changes nothing else of the ship, in
    particular not its position; otherwise the ship moves to the target and
    keeps its health. Nothing of this depends on earlier frames. A ship at
    rest on an Open cell is left as it is. (The additions and the decrement
    are those of C [int]s, taken where they do not overflow.) *)
Theorem UpdateShips_move_or_collide g i :
  length (gs_players g) = MAX_PLAYERS → (i < MAX_PLAYERS)%nat →
  let s := ship_of i g in
  let s' := ship_of i (UpdateShips g) in
  let tx := s_x s + s_vx s in
  let ty := s_y s + s_vy s in
  fits tx → fits ty → fits (s_hp s - 1) →
  (is_blocking (gs_map g) tx ty →
     s' = set_hp (s_hp s - 1) s ∧ s_x s' = s_x s ∧ s_y s' = s_y s) ∧
  (¬ is_blocking (gs_map g) tx ty →
     s' = set_pos tx ty s ∧ s_hp s' = s_hp s) ∧
  (s_vx s = 0 → s_vy s = 0 →
     in_range (s_x s) (s_y s) ∧ classify (gs_map g) (s_x s) (s_y s) = Open →
     s' = s).
Proof.
  intros Hl Hi s s' tx ty Hx Hy Hh.
  assert (Hs' : s' = move_ship (gs_map g) s) by by apply ship_of_UpdateShips.
  unfold move_ship in Hs'.
  rewrite !int_add_fits, int_dec_fits in Hs' by done.
  fold tx ty in Hs'. split; [|split].
  - intros Hb. apply blocked_true in Hb. rewrite Hb in Hs'. by rewrite Hs'.
  - intros Hb. destruct (blocked (gs_map g) tx ty) eqn:E.
    + by apply blocked_true in E.
    + by rewrite Hs'.
  - intros Hvx Hvy Hopen.
    assert (tx = s_x s ∧ ty = s_y s) as [-> ->] by (subst tx ty; lia).
    apply blocked_false in Hopen. rewrite Hopen in Hs'. rewrite Hs'.
    by destruct s.
Qed.

Lemma UpdateShips_move_or_collide_witness :
  ship_of 0 ramming = mkShip 1 2 3 (-1) 0 (replicate MAX_PROJECTILES idle) ∧
  is_blocking (gs_map ramming) 0 2 ∧
  ship_of 0 (UpdateShips ramming)
  = mkShip 1 2 2 (-1) 0 (replicate MAX_PROJECTILES idle).
Proof.
  assert (Hs : ship_of 0 ramming
               = mkShip 1 2 3 (-1) 0 (replicate MAX_PROJECTILES idle))
    by (vm_compute; reflexivity).
  assert (Hb : is_blocking (gs_map ramming) 0 2)
    by (right; left; vm_compute; reflexivity).
  split; [exact Hs|]. split; [exact Hb|].
  assert (Hl : length (gs_players ramming) = MAX_PLAYERS) by (vm_compute; reflexivity).
  assert (Hi : (0 < MAX_PLAYERS)%nat) by (unfold MAX_PLAYERS; lia).
  pose proof (UpdateShips_move_or_collide ramming 0 Hl Hi) as H.
  cbv zeta in H. rewrite Hs in H. cbn [s_x s_y s_vx s_vy s_hp] in H.
  assert (F : ∀ z, -4 <= z <= 4 → fits z)
    by (unfold fits, INT_MIN, INT_MAX; lia).
  destruct H as [Hcol _]; [apply F; lia..|].
  destruct (Hcol Hb) as [-> _]. reflexivity.
Defined.

(** ** C7: projectile advancement *)

(** C7: for every slot of either ship, [UpdateProjectiles] computes
    next = position + direction for an active projectile and either only
    clears its active flag (next is out of range, Wall or Obstacle) or moves
    it to next, still active; so a projectile that is active and one step
    from a blocking cell is inactive after this one advance. An inactive
    projectile is left as it is. (Additions are those of C [int]s, taken
    where they do not overflow.) *)
Theorem UpdateProjectiles_advance g i j :
  wf g → (i < MAX_PLAYERS)%nat → (j < MAX_PROJECTILES)%nat →
  let p := projectile_of i j g in
  let p' := projectile_of i j (UpdateProjectiles g) in
  let nx := p_x p + p_dx p in
  let ny := p_y p + p_dy p in
  fits nx → fits ny →
  (p_active p = true → is_blocking (gs_map g) nx ny →
     p' = set_active false p ∧ p_active p' = false) ∧
  (p_active p = true → ¬ is_blocking (gs_map g) nx ny →
     p' = set_ppos nx ny p ∧ p_active p' = true) ∧
  (p_active p = false → p' = p).
Proof.
  intros Hwf Hi Hj p p' nx ny Hx Hy.
  assert (Hp' : p' = advance (gs_map g) p)
    by by apply projectile_of_UpdateProjectiles.
  unfold advance in Hp'. rewrite !int_add_fits in Hp' by done.
  fold nx ny in Hp'. split; [|split].
  - intros Ha Hb. apply blocked_true in Hb. rewrite Ha, Hb in Hp'.
    by rewrite Hp'.
  - intros Ha Hb. rewrite Ha in Hp'.
    destruct (blocked (gs_map g) nx ny) eqn:E.
    + by apply blocked_true in E.
    + rewrite Hp'. split; [done|]. exact Ha.
  - intros Ha. by rewrite Ha in Hp'.
Qed.

Lemma UpdateProjectiles_advance_witness :
  projectile_of 0 0 shot_below_wall = mkProjectile 2 1 0 (-1) true ∧
  is_blocking (gs_map shot_below_wall) 2 0 ∧
  projectile_of 0 0 (UpdateProjectiles shot_below_wall)
  = mkProjectile 2 1 0 (-1) false.
Proof.
  assert (Hp : projectile_of 0 0 shot_below_wall = mkProjectile 2 1 0 (-1) true)
    by (vm_compute; reflexivity).
  assert (Hb : is_blocking (gs_map shot_below_wall) 2 0)
    by (right; left; vm_compute; reflexivity).
  split; [exact Hp|]. split; [exact Hb|].
  assert (Hwf : wf shot_below_wall).
  { apply Inv_wf, Inv_run, Inv_InitGame. }
  assert (Hi : (0 < MAX_PLAYERS)%nat) by (unfold MAX_PLAYERS; lia).
  assert (Hj : (0 < MAX_PROJECTILES)%nat) by (unfold MAX_PROJECTILES; lia).
  pose proof (UpdateProjectiles_advance shot_below_wall 0 0 Hwf Hi Hj) as H.
  cbv zeta in H. rewrite Hp in H. cbn [p_x p_y p_dx p_dy p_active] in H.
  assert (F : ∀ z, -4 <= z <= 4 → fits z)
    by (unfold fits, INT_MIN, INT_MAX; lia).
  destruct H as [Hstop _]; [apply F; lia..|].
  destruct (Hstop eq_refl Hb) as [-> _]. reflexivity.
Defined.

(** ** C8: the projectile pool *)

Lemma upd_ship_at i f h g :
  f (ship_of i g) = h (ship_of i g) → upd_ship i f g = upd_ship i h g.
Proof.
  intros Hfh. unfold upd_ship, set_players. f_equal.
  apply list_alter_ext; [|done]. intros pl Hpl.
  unfold ship_of in Hfh. rewrite list_lookup_total_alt, Hpl in Hfh.
  cbn in Hfh. by rewrite Hfh.
Qed.

(** C8: firing scans the five slots of the ship upwards. If slot [i] is the
    first that is not active, that slot becomes the new shot (at the ship's
    cell, along its velocity, upward when it stands still, active) and
    nothing else in the game changes; the pool keeps its five slots. If all
    five are active the whole state is unchanged. *)
Theorem fire_takes_first_free_slot g pl :
  wf g → (pl < MAX_PLAYERS)%nat →
  let s := ship_of pl g in
  let ps := s_projectiles s in
  (∀ i, (i < MAX_PROJECTILES)%nat →
        p_active (ps !!! i) = false →
        (∀ k, (k < i)%nat → p_active (ps !!! k) = true) →
        fire pl g = upd_ship pl (set_projectiles (<[i := shot s]> ps)) g ∧
        s_projectiles (ship_of pl (fire pl g)) = <[i := shot s]> ps ∧
        length (s_projectiles (ship_of pl (fire pl g))) = MAX_PROJECTILES) ∧
  ((∀ k, (k < MAX_PROJECTILES)%nat → p_active (ps !!! k) = true) →
        fire pl g = g).
Proof.
  intros Hwf Hpl s ps.
  assert (Hlen : length ps = MAX_PROJECTILES) by by apply wf_ship_of.
  split.
  - intros i Hi Hfree Hbefore.
    assert (Hff : first_free ps = Some i).
    { apply first_free_Some. rewrite Hlen. auto. }
    assert (Hfire : fire pl g = upd_ship pl (set_projectiles (<[i := shot s]> ps)) g).
    { rewrite fire_eq by done. fold s ps. rewrite Hff.
      unfold upd_projectile. apply upd_ship_at. fold s ps.
      by rewrite list_insert_alter. }
    split; [exact Hfire|].
    rewrite Hfire, ship_of_upd_ship by (destruct Hwf; lia).
    cbn [set_projectiles s_projectiles]. split; [done|].
    by rewrite length_insert.
  - intros Hall. rewrite fire_eq by done. fold s ps.
    assert (first_free ps = None) as ->; [|done].
    apply first_free_None. by rewrite Hlen.
Qed.

Lemma fire_takes_first_free_slot_witness :
  s_projectiles (ship_of 0 (fire 0 InitGame))
    = mkProjectile 2 2 0 (-1) true :: replicate 4 idle ∧
  fire 0 pool_full = pool_full.
Proof.
  assert (Hpl : (0 < MAX_PLAYERS)%nat) by (unfold MAX_PLAYERS; lia).
  split.
  - destruct (fire_takes_first_free_slot InitGame 0
      (Inv_wf _ Inv_InitGame) Hpl) as [Hsome _].
    destruct (Hsome 0%nat) as (_ & -> & _).
    + unfold MAX_PROJECTILES; lia.
    + vm_compute; reflexivity.
    + intros k Hk; lia.
    + vm_compute; reflexivity.
  - assert (Hwf : wf pool_full).
    { split; [reflexivity|]. repeat constructor. }
    destruct (fire_takes_first_free_slot pool_full 0 Hwf Hpl) as [_ Hnone].
    apply Hnone. intros k Hk. unfold MAX_PROJECTILES in Hk.
    destruct k as [|[|[|[|[|k]]]]]; [vm_compute; reflexivity..|lia].
Defined.

(** ** C2: a shot starts where the ship stood *)

(** C2, as amended: in every frame the trigger is served inside
    [HandleInput], before [UpdateShips] moves the ships. A shot spawned in a
    frame starts at the cell the ship occupied before that frame's movement,
    its direction is that frame's velocity, or (0,-1) when the velocity is
    (0,0); the movement that follows applies to the ship and leaves the shot
    as it was. *)
Theorem shot_spawns_before_movement kb g pl i :
  wf g → (pl < MAX_PLAYERS)%nat →
  IsKeyPressed kb (trigger pl) = true →
  first_free (s_projectiles (ship_of pl g)) = Some i →
  let g1 := HandleInput kb g in
  let g2 := UpdateShips g1 in
  let vx := intent_vx kb pl in
  let vy := intent_vy kb pl in
  (s_vx (ship_of pl g1), s_vy (ship_of pl g1)) = (vx, vy) ∧
  (s_x (ship_of pl g1), s_y (ship_of pl g1))
    = (s_x (ship_of pl g), s_y (ship_of pl g)) ∧
  projectile_of pl i g1 =
    mkProjectile (s_x (ship_of pl g)) (s_y (ship_of pl g))
      vx (if (vx =? 0) && (vy =? 0) then -1 else vy) true ∧
  projectile_of pl i g2 = projectile_of pl i g1 ∧
  ship_of pl g2 = move_ship (gs_map g) (ship_of pl g1).
Proof.
  intros Hwf Hpl Hkey Hfree g1 g2 vx vy.
  assert (Hs1 : ship_of pl g1 =
    set_projectiles (<[i := shot (set_vel vx vy (ship_of pl g))]>
      (s_projectiles (ship_of pl g))) (set_vel vx vy (ship_of pl g))).
  { subst g1. rewrite ship_of_HandleInput by done. cbv zeta. rewrite Hkey.
    unfold fire_ship. fold vx vy.
    assert (s_projectiles (set_vel vx vy (ship_of pl g))
            = s_projectiles (ship_of pl g)) as -> by reflexivity.
    by rewrite Hfree. }
  assert (Hl1 : length (gs_players g1) = MAX_PLAYERS).
  { pose proof (wf_HandleInput kb g Hwf) as [? _]. done. }
  apply first_free_Some in Hfree as (Hi & _ & _).
  split; [by rewrite Hs1|]. split; [by rewrite Hs1|]. split; [|split].
  - unfold projectile_of. rewrite Hs1. cbn [set_projectiles s_projectiles].
    rewrite list_lookup_total_insert_eq by done. reflexivity.
  - by apply projectile_of_UpdateShips.
  - subst g2. rewrite ship_of_UpdateShips by done.
    subst g1. by rewrite gs_map_HandleInput.
Qed.

Lemma shot_spawns_before_movement_witness :
  projectile_of 0 0 (HandleInput kb_move_and_fire InitGame)
    = mkProjectile 2 2 1 0 true ∧
  projectile_of 0 0 (UpdateShips (HandleInput kb_move_and_fire InitGame))
    = mkProjectile 2 2 1 0 true.
Proof.
  assert (Hpl : (0 < MAX_PLAYERS)%nat) by (unfold MAX_PLAYERS; lia).
  assert (Hkey : IsKeyPressed kb_move_and_fire (trigger 0) = true)
    by (vm_compute; reflexivity).
  assert (Hfree : first_free (s_projectiles (ship_of 0 InitGame)) = Some 0%nat)
    by (vm_compute; reflexivity).
  destruct (shot_spawns_before_movement kb_move_and_fire InitGame 0 0
    (Inv_wf _ Inv_InitGame) Hpl Hkey Hfree) as (_ & _ & H1 & H2 & _).
  rewrite H2, H1. split; vm_compute; reflexivity.
Defined.

(** C2 as stated fails: ship A at (2,2) holds D and fires. After input and
    movement the ship is at (3,2) while its new shot is still at (2,2); the
    advance of the same frame then carries the shot to (3,2), not to (4,2). *)
Lemma shot_origin_is_not_post_movement :
  (s_x (ship_of 0 (UpdateShips (HandleInput kb_move_and_fire InitGame))),
   s_y (ship_of 0 (UpdateShips (HandleInput kb_move_and_fire InitGame))))
    = (3, 2) ∧
  projectile_of 0 0 (UpdateShips (HandleInput kb_move_and_fire InitGame))
    = mkProjectile 2 2 1 0 true ∧
  projectile_of 0 0 (Step kb_move_and_fire InitGame)
    = mkProjectile 3 2 1 0 true.
Proof. evaluate. Qed.

(** ** C1: simultaneous hits *)

(** When the first loop of [CheckHits] returns (a shot of A has brought B
    to 0), the function is over: A's health is what it was and no slot of B
    has been looked at, whatever B's shots are on. *)
Lemma CheckHits_first_loop_return g g' :
  length (gs_players g) = MAX_PLAYERS →
  (s_hp (ship_of 0 g) <=? 0) && (s_hp (ship_of 1 g) <=? 0) = false →
  for_ret MAX_PROJECTILES 0 (CheckHits_body 0 1) g = Returned g' →
  CheckHits g = g' ∧
  s_hp (ship_of 0 g') = s_hp (ship_of 0 g) ∧
  s_projectiles (ship_of 1 g') = s_projectiles (ship_of 1 g).
Proof.
  intros Hl Halive Hret.
  split; [unfold CheckHits; by rewrite Halive, Hret|].
  clear Halive.
  set (P := λ h, length (gs_players h) = MAX_PLAYERS ∧
                 s_hp (ship_of 0 h) = s_hp (ship_of 0 g) ∧
                 s_projectiles (ship_of 1 h) = s_projectiles (ship_of 1 g)).
  assert (Hbody : ∀ i h, P h → ctl_holds P (CheckHits_body 0 1 i h)).
  { intros i h HPh. pose proof HPh as (Hlh & Hhp & Hps).
    unfold CheckHits_body.
    destruct (_ && _); [|exact HPh].
    set (h1 := upd_ship 1 _ h).
    set (h2 := upd_projectile 0 i (set_active false) h1).
    assert (P h2) as Hh2.
    { subst h2 h1. unfold upd_projectile. repeat split.
      - by rewrite !length_upd_ship.
      - rewrite ship_of_upd_ship
          by (rewrite length_upd_ship, Hlh; unfold MAX_PLAYERS; lia).
        cbn [set_projectiles s_hp]. by rewrite ship_of_upd_ship_ne.
      - rewrite ship_of_upd_ship_ne by done.
        rewrite ship_of_upd_ship by (rewrite Hlh; unfold MAX_PLAYERS; lia).
        done. }
    destruct (_ <=? 0); exact Hh2. }
  pose proof (for_ret_invariant P _ Hbody MAX_PROJECTILES 0%nat g) as HP.
  rewrite Hret in HP. cbn [ctl_holds] in HP.
  by destruct HP as (_ & ? & ?).
Qed.

(** C1 on the code: in the frame in which a shot of each ship reaches the
    other ship, both at health 1, [CheckHits] returns as soon as A's shot
    has brought B to 0. B's shot, on A's cell, is never tested: it stays
    active, A keeps health 1, and the game ends with A as the winner and not
    as a tie. This holds in the constructed state and in a state reached by
    play from the start. *)
Theorem CheckHits_returns_at_first_kill :
  (s_hp (ship_of 0 mutual_hit) = 1 ∧ s_hp (ship_of 1 mutual_hit) = 1 ∧
   gs_gameOver mutual_hit = false ∧
   s_hp (ship_of 0 (Step kb_apart mutual_hit)) = 1 ∧
   s_hp (ship_of 1 (Step kb_apart mutual_hit)) = 0 ∧
   gs_gameOver (Step kb_apart mutual_hit) = true ∧
   verdict (Step kb_apart mutual_hit) = Some (Winner 0) ∧
   projectile_of 1 0 (Step kb_apart mutual_hit) = mkProjectile 4 5 (-1) 0 true ∧
   (s_x (ship_of 0 (Step kb_apart mutual_hit)),
    s_y (ship_of 0 (Step kb_apart mutual_hit))) = (4, 5)) ∧
  (s_hp (ship_of 0 (run duel InitGame)) = 1 ∧
   s_hp (ship_of 1 (run duel InitGame)) = 1 ∧
   gs_gameOver (run duel InitGame) = false ∧
   s_hp (ship_of 0 (Step no_keys (run duel InitGame))) = 1 ∧
   s_hp (ship_of 1 (Step no_keys (run duel InitGame))) = 0 ∧
   gs_gameOver (Step no_keys (run duel InitGame)) = true ∧
   verdict (Step no_keys (run duel InitGame)) = Some (Winner 0) ∧
   projectile_of 1 0 (Step no_keys (run duel InitGame))
     = mkProjectile 1 2 (-1) 0 true ∧
   (s_x (ship_of 0 (Step no_keys (run duel InitGame))),
    s_y (ship_of 0 (Step no_keys (run duel InitGame)))) = (1, 2)).
Proof.
  split.
  - evaluate.
  - evaluate.
Qed.

(** ** C4: a frozen state *)

Lemma Step_frozen_witness :
  gs_gameOver (run (duel ++ [no_keys]) InitGame) = true ∧
  Step kb_move_and_fire (run (duel ++ [no_keys]) InitGame)
    = run (duel ++ [no_keys]) InitGame.
Proof.
  assert (Hover : gs_gameOver (run (duel ++ [no_keys]) InitGame) = true)
    by (vm_compute; reflexivity).
  split; [exact Hover|].
  exact (Step_frozen kb_move_and_fire _ Hover).
Defined.

(** ** C10: the frame in which a ship is wrecked runs to its end *)

(** C10: a frame that starts with the game running is executed in full,
    also when [UpdateShips] sets [gameOver] in it; only the next Step is
    frozen. In the run [last_stand] ship A, at health 1, rams the wall in
    the last frame: its health is 0 after [UpdateShips] and the flag is set,
    yet its shot still advances onto B and costs B one health, and B's shot
    advances onto A and takes A to -1. *)
Theorem wrecked_ship_finishes_the_frame :
  (∀ kb g, gs_gameOver g = false →
     Step kb g = CheckHits (UpdateProjectiles (UpdateShips (HandleInput kb g)))) ∧
  gs_gameOver (run last_stand InitGame) = false ∧
  s_hp (ship_of 0 (run last_stand InitGame)) = 1 ∧
  s_hp (ship_of 1 (run last_stand InitGame)) = 3 ∧
  projectile_of 0 0 (run last_stand InitGame) = mkProjectile 17 2 1 0 true ∧
  projectile_of 1 0 (run last_stand InitGame) = mkProjectile 2 2 (-1) 0 true ∧
  s_hp (ship_of 0 (UpdateShips (HandleInput kb_left (run last_stand InitGame)))) = 0 ∧
  gs_gameOver (UpdateShips (HandleInput kb_left (run last_stand InitGame))) = true ∧
  projectile_of 0 0 (UpdateProjectiles (UpdateShips
     (HandleInput kb_left (run last_stand InitGame)))) = mkProjectile 18 2 1 0 true ∧
  s_hp (ship_of 0 (Step kb_left (run last_stand InitGame))) = -1 ∧
  s_hp (ship_of 1 (Step kb_left (run last_stand InitGame))) = 2 ∧
  gs_gameOver (Step kb_left (run last_stand InitGame)) = true ∧
  (∀ kb, Step kb (Step kb_left (run last_stand InitGame))
         = Step kb_left (run last_stand InitGame)).
Proof.
  split.
  { intros kb g Hrun. unfold Step. rewrite Hrun. reflexivity. }
  repeat match goal with |- _ ∧ _ => split end.
  all: vm_compute; reflexivity.
Qed.

(** * Further properties *)

(** ** What each routine does to one ship and to the flag *)

Lemma gs_gameOver_fire_from n i pl g :
  gs_gameOver (fire_from n i pl g) = gs_gameOver g.
Proof.
  revert i. induction n as [|n IH]; intros i; simpl; [done|].
  destruct (p_active _); simpl; [apply IH|done].
Qed.

Lemma gs_gameOver_HandleInput kb g :
  gs_gameOver (HandleInput kb g) = gs_gameOver g.
Proof.
  rewrite HandleInput_eq. cbv zeta.
  repeat match goal with
    | |- context [if ?c then _ else _] => destruct c
    end;
    unfold fire;
    repeat (rewrite gs_gameOver_fire_from || unfold upd_ship, set_players;
            cbn [gs_gameOver]); reflexivity.
Qed.

Lemma gs_gameOver_UpdateShips g :
  length (gs_players g) = MAX_PLAYERS →
  gs_gameOver (UpdateShips g) =
  gs_gameOver g || wrecked (gs_map g) (ship_of 0 g)
                || wrecked (gs_map g) (ship_of 1 g).
Proof.
  intros Hl. rewrite UpdateShips_fmap by done.
  destruct g as [pls go m]. cbn [gs_players gs_gameOver gs_map] in *.
  destruct pls as [|pa [|pb [|? ?]]]; try done.
  unfold ship_of; cbn. by rewrite orb_false_r, orb_assoc.
Qed.

Lemma gs_gameOver_UpdateProjectiles g :
  wf g → gs_gameOver (UpdateProjectiles g) = gs_gameOver g.
Proof. intros Hwf. by rewrite UpdateProjectiles_fmap. Qed.

Lemma ship_of_UpdateProjectiles g i :
  wf g → (i < MAX_PLAYERS)%nat →
  ship_of i (UpdateProjectiles g) =
  set_projectiles (advance (gs_map g) <$> s_projectiles (ship_of i g))
    (ship_of i g).
Proof.
  intros Hwf Hi. rewrite UpdateProjectiles_fmap by done.
  pose proof Hwf as [Hl _].
  destruct g as [pls go m]. cbn [gs_players gs_map] in *.
  destruct pls as [|pa [|pb [|? ?]]]; try done.
  destruct i as [|[|i]]; [done | done | unfold MAX_PLAYERS in Hi; lia].
Qed.

Lemma wf_UpdateShips g : wf g → wf (UpdateShips g).
Proof.
  intros [Hl Hps]. rewrite UpdateShips_fmap by done.
  split; cbn [gs_players].
  - by rewrite length_fmap.
  - apply Forall_fmap. eapply Forall_impl; [exact Hps|].
    intros pl Hpl. unfold compose, set_ship, move_ship; cbn [pl_ship].
    by destruct (blocked _ _ _).
Qed.

Lemma wf_UpdateProjectiles g : wf g → wf (UpdateProjectiles g).
Proof.
  intros Hwf. rewrite UpdateProjectiles_fmap by done. destruct Hwf as [Hl Hps].
  split; unfold set_players; cbn [gs_players].
  - by rewrite length_fmap.
  - apply Forall_fmap. eapply Forall_impl; [exact Hps|].
    intros pl Hpl. unfold compose, set_ship, set_projectiles; cbn [pl_ship s_projectiles].
    by rewrite length_fmap.
Qed.

(** The two ships after a hit of [a]'s slot [i] on [b]. *)
Lemma ship_of_hit a b i g :
  a ≠ b → (a < MAX_PLAYERS)%nat → (b < MAX_PLAYERS)%nat →
  length (gs_players g) = MAX_PLAYERS →
  let g' := upd_projectile a i (set_active false)
              (upd_ship b (λ s, set_hp (int_dec (s_hp s)) s) g) in
  ship_of b g' = set_hp (int_dec (s_hp (ship_of b g))) (ship_of b g) ∧
  ship_of a g' =
    set_projectiles (alter (set_active false) i (s_projectiles (ship_of a g)))
      (ship_of a g) ∧
  length (gs_players g') = MAX_PLAYERS ∧
  gs_gameOver g' = gs_gameOver g.
Proof.
  intros Hab Ha Hb Hl g'. subst g'. unfold upd_projectile. repeat split.
  - rewrite ship_of_upd_ship_ne by done. by rewrite ship_of_upd_ship by lia.
  - rewrite ship_of_upd_ship by (rewrite length_upd_ship; lia).
    by rewrite ship_of_upd_ship_ne by done.
  - by rewrite !length_upd_ship.
Qed.

Lemma for_ret_invariant2 (P Q : GameState → Prop) body :
  (∀ i g, P g → ctl_holds2 P Q (body i g)) →
  ∀ n i g, P g → ctl_holds2 P Q (for_ret n i body g).
Proof.
  intros Hbody. induction n as [|n IH]; intros i g Hg; simpl; [done|].
  specialize (Hbody i g Hg). destruct (body i g) as [g'|g']; simpl in *; auto.
Qed.

(** ** Health and the flag through one frame *)

Lemma hp_within_weaken lo lo' a0 b0 g :
  lo' <= lo → hp_within lo a0 b0 g → hp_within lo' a0 b0 g.
Proof.
  intros Hlo (Hl & H0 & H1 & Ho).
  split; [done|]. split; [lia|]. split; [lia|done].
Qed.

Lemma hp_within_set_gameOver lo a0 b0 g :
  length (gs_players g) = MAX_PLAYERS →
  lo <= s_hp (ship_of 0 g) <= a0 →
  lo <= s_hp (ship_of 1 g) <= b0 →
  s_hp (ship_of 0 g) <= 0 ∨ s_hp (ship_of 1 g) <= 0 →
  hp_within lo a0 b0 (set_gameOver true g).
Proof.
  intros Hl H0 H1 Hdead.
  split; [done|]. split; [done|]. split; [done|].
  split; [by intros _|by intros _].
Qed.

Lemma hp_CheckHits_body a b i g a0 b0 :
  a ≠ b → (a < MAX_PLAYERS)%nat → (b < MAX_PLAYERS)%nat →
  a0 <= INT_MAX → b0 <= INT_MAX →
  hp_within 0 a0 b0 g →
  ctl_holds2 (hp_within 0 a0 b0) (hp_within (-1) a0 b0) (CheckHits_body a b i g).
Proof.
  intros Hab Ha Hb Ha0 Hb0 Hg. unfold CheckHits_body.
  destruct (p_active _ && _ && _); [|exact Hg].
  pose proof Hg as (Hl & H0 & H1 & Hover).
  destruct (ship_of_hit a b i g Hab Ha Hb Hl) as (Eb & Ea & Hl' & Hgo).
  set (g' := upd_projectile a i (set_active false) _) in *.
  assert (Hfit : ∀ h c0, 0 <= h <= c0 → c0 <= INT_MAX → int_dec h = h - 1).
  { intros h c0 Hh Hc0. apply int_dec_fits. unfold fits, INT_MIN, INT_MAX in *. lia. }
  assert (Hhpa : s_hp (ship_of a g') = s_hp (ship_of a g)) by by rewrite Ea.
  assert (Hhpb : s_hp (ship_of b g') = s_hp (ship_of b g) - 1).
  { rewrite Eb. cbn [set_hp s_hp]. unfold MAX_PLAYERS in Hb.
    destruct b as [|[|b]]; [by eapply Hfit | by eapply Hfit | lia]. }
  unfold MAX_PLAYERS in Ha, Hb. unfold over_iff_dead in Hover.
  assert (Hcases : (a = 0%nat ∧ b = 1%nat) ∨ (a = 1%nat ∧ b = 0%nat)) by lia.
  destruct (s_hp (ship_of b g') <=? 0) eqn:Hle; cbn [ctl_holds2].
  - apply Z.leb_le in Hle.
    destruct Hcases as [[-> ->]|[-> ->]];
      apply hp_within_set_gameOver; try done; lia.
  - apply Z.leb_gt in Hle.
    destruct Hcases as [[-> ->]|[-> ->]].
    + split; [done|]. split; [lia|]. split; [lia|].
      unfold over_iff_dead. rewrite Hgo, Hhpa, Hhpb.
      split; [intros Ht; apply Hover in Ht; lia | intros Hd; apply Hover; lia].
    + split; [done|]. split; [lia|]. split; [lia|].
      unfold over_iff_dead. rewrite Hgo, Hhpa, Hhpb.
      split; [intros Ht; apply Hover in Ht; lia | intros Hd; apply Hover; lia].
Qed.

Lemma hp_CheckHits g a0 b0 :
  a0 <= INT_MAX → b0 <= INT_MAX →
  hp_within 0 a0 b0 g → hp_within (-1) a0 b0 (CheckHits g).
Proof.
  intros Ha0 Hb0 Hg. unfold CheckHits.
  assert (H01 : (0 < MAX_PLAYERS)%nat ∧ (1 < MAX_PLAYERS)%nat)
    by (unfold MAX_PLAYERS; lia).
  destruct H01 as [H0 H1].
  destruct ((s_hp (ship_of 0 g) <=? 0) && (s_hp (ship_of 1 g) <=? 0)) eqn:Hboth.
  - apply andb_true_iff in Hboth as [Hx%Z.leb_le _].
    destruct Hg as (Hl & Hh0 & Hh1 & _).
    apply hp_within_set_gameOver; [done|lia|lia|by left].
  - clear Hboth.
    pose proof (for_ret_invariant2 _ _ (CheckHits_body 0 1)
      (λ i h, hp_CheckHits_body 0 1 i h a0 b0 ltac:(done) H0 H1 Ha0 Hb0)
      MAX_PROJECTILES 0%nat g Hg) as HA.
    destruct (for_ret _ _ (CheckHits_body 0 1) g) as [g1|g1];
      cbn [ctl_holds2] in HA; [|done].
    pose proof (for_ret_invariant2 _ _ (CheckHits_body 1 0)
      (λ i h, hp_CheckHits_body 1 0 i h a0 b0 ltac:(done) H1 H0 Ha0 Hb0)
      MAX_PROJECTILES 0%nat g1 HA) as HB.
    destruct (for_ret _ _ (CheckHits_body 1 0) g1) as [g2|g2];
      cbn [ctl_holds2] in HB; [|done].
    by apply (hp_within_weaken 0).
Qed.

Lemma s_hp_HandleInput kb g i :
  wf g → (i < MAX_PLAYERS)%nat →
  s_hp (ship_of i (HandleInput kb g)) = s_hp (ship_of i g).
Proof.
  intros Hwf Hi. rewrite ship_of_HandleInput by done. cbv zeta.
  destruct (IsKeyPressed kb (trigger i)); [|done].
  unfold fire_ship. by destruct (first_free _).
Qed.

Lemma hp_UpdateShips g a0 b0 :
  a0 <= INT_MAX → b0 <= INT_MAX →
  gs_gameOver g = false →
  hp_within 1 a0 b0 g → hp_within 0 a0 b0 (UpdateShips g).
Proof.
  intros Ha0 Hb0 Hrun (Hl & H0 & H1 & _).
  assert (H01 : (0 < MAX_PLAYERS)%nat ∧ (1 < MAX_PLAYERS)%nat)
    by (unfold MAX_PLAYERS; lia).
  destruct H01 as [Hi0 Hi1].
  assert (Hdec : ∀ h c0, 1 <= h <= c0 → c0 <= INT_MAX → int_dec h = h - 1).
  { intros h c0 Hh Hc0. apply int_dec_fits. unfold fits, INT_MIN, INT_MAX in *. lia. }
  assert (Hlen : length (gs_players (UpdateShips g)) = MAX_PLAYERS).
  { rewrite UpdateShips_fmap by done. cbn [gs_players]. by rewrite length_fmap. }
  unfold hp_within, over_iff_dead.
  rewrite gs_gameOver_UpdateShips, !ship_of_UpdateShips, Hrun by done.
  unfold wrecked, move_ship. cbn [orb].
  rewrite (Hdec _ _ H0 Ha0), (Hdec _ _ H1 Hb0).
  split; [done|].
  destruct (blocked (gs_map g) _ _), (blocked (gs_map g) _ _);
    cbn [set_hp set_pos s_hp andb orb];
    rewrite ?orb_false_r, ?orb_true_iff, ?Z.leb_le;
    (split; [lia|]); (split; [lia|]);
    (split; [intros Ht; try discriminate Ht; lia | intros Hd; lia]).
Qed.

(** ** Velocities and directions through one frame *)

Lemma axis_unit a b : unit_step (axis a b).
Proof. unfold unit_step, axis, MAX_SPEED. destruct a, b; lia. Qed.

Lemma dir_ok_shot s :
  unit_step (s_vx s) → unit_step (s_vy s) → dir_ok (shot s).
Proof.
  unfold dir_ok, shot, unit_step. cbn [p_dx p_dy]. intros Hx Hy _.
  destruct (s_vx s =? 0) eqn:Ex; destruct (s_vy s =? 0) eqn:Ey; cbn [andb];
    rewrite ?Z.eqb_eq, ?Z.eqb_neq in *; lia.
Qed.

Lemma ship_steps_fire_ship s : ship_steps s → ship_steps (fire_ship s).
Proof.
  intros (Hx & Hy & Hps). unfold fire_ship.
  destruct (first_free _) as [i|]; [|done].
  split; [done|]. split; [done|]. cbn [set_projectiles s_projectiles].
  apply Forall_insert; [done|]. by apply dir_ok_shot.
Qed.

Lemma dir_ok_advance m p : dir_ok p → dir_ok (advance m p).
Proof.
  intros Hp. unfold advance. destruct (p_active p) eqn:Ha.
  - destruct (blocked m _ _).
    + intros H. discriminate H.
    + intros _. cbn [set_ppos p_dx p_dy]. by apply Hp.
  - intros H. congruence.
Qed.

Lemma Steps_HandleInput kb g : Steps g → Steps (HandleInput kb g).
Proof.
  intros (Hwf & H0 & H1).
  assert (Hstep : ∀ i, (i < MAX_PLAYERS)%nat → ship_steps (ship_of i g) →
                       ship_steps (ship_of i (HandleInput kb g))).
  { intros i Hi (_ & _ & Hps). rewrite ship_of_HandleInput by done. cbv zeta.
    assert (ship_steps (set_vel (intent_vx kb i) (intent_vy kb i) (ship_of i g)))
      as Hs by (repeat split; [apply axis_unit..|done]).
    destruct (IsKeyPressed kb (trigger i)); [|done].
    by apply ship_steps_fire_ship. }
  split; [by apply wf_HandleInput|].
  split; apply Hstep; try done; unfold MAX_PLAYERS; lia.
Qed.

Lemma Steps_UpdateShips g : Steps g → Steps (UpdateShips g).
Proof.
  intros (Hwf & H0 & H1). pose proof Hwf as [Hl _].
  split; [by apply wf_UpdateShips|].
  rewrite !ship_of_UpdateShips by (done || unfold MAX_PLAYERS; lia).
  unfold move_ship. split; by destruct (blocked _ _ _).
Qed.

Lemma Steps_UpdateProjectiles g : Steps g → Steps (UpdateProjectiles g).
Proof.
  intros (Hwf & H0 & H1).
  split; [by apply wf_UpdateProjectiles|].
  rewrite !ship_of_UpdateProjectiles by (done || unfold MAX_PLAYERS; lia).
  split.
  - destruct H0 as (? & ? & Hps). split; [done|]. split; [done|].
    cbn [set_projectiles s_projectiles]. apply Forall_fmap.
    eapply Forall_impl; [exact Hps|]. intros p. apply dir_ok_advance.
  - destruct H1 as (? & ? & Hps). split; [done|]. split; [done|].
    cbn [set_projectiles s_projectiles]. apply Forall_fmap.
    eapply Forall_impl; [exact Hps|]. intros p. apply dir_ok_advance.
Qed.

Lemma ship_steps_hit_target s h : ship_steps s → ship_steps (set_hp h s).
Proof. by intros (? & ? & ?). Qed.

Lemma ship_steps_hit_shooter s i :
  ship_steps s →
  ship_steps (set_projectiles (alter (set_active false) i (s_projectiles s)) s).
Proof.
  intros (? & ? & Hps). split; [done|]. split; [done|].
  cbn [set_projectiles s_projectiles]. apply Forall_alter; [done|].
  intros p _ _ Hact. discriminate Hact.
Qed.

Lemma Steps_CheckHits_body a b i g :
  a ≠ b → (a < MAX_PLAYERS)%nat → (b < MAX_PLAYERS)%nat →
  Steps g → ctl_holds Steps (CheckHits_body a b i g).
Proof.
  intros Hab Ha Hb HS. unfold CheckHits_body.
  destruct (p_active _ && _ && _); [|exact HS].
  pose proof HS as (Hwf & H0 & H1). pose proof Hwf as [Hl _].
  destruct (ship_of_hit a b i g Hab Ha Hb Hl) as (Eb & Ea & _ & _).
  set (g' := upd_projectile a i (set_active false) _) in *.
  assert (HS' : Steps g').
  { split.
    - subst g'. unfold upd_projectile.
      apply wf_upd_ship; [intros s; cbn; apply length_alter|].
      apply wf_upd_ship; [by intros []|done].
    - unfold MAX_PLAYERS in Ha, Hb.
      assert (Hcases : (a = 0%nat ∧ b = 1%nat) ∨ (a = 1%nat ∧ b = 0%nat)) by lia.
      destruct Hcases as [[-> ->]|[-> ->]]; rewrite Ea, Eb;
        split; auto using ship_steps_hit_target, ship_steps_hit_shooter. }
  destruct (_ <=? 0); exact HS'.
Qed.

Lemma Steps_CheckHits g : Steps g → Steps (CheckHits g).
Proof.
  intros HS. unfold CheckHits.
  assert (H01 : (0 < MAX_PLAYERS)%nat ∧ (1 < MAX_PLAYERS)%nat)
    by (unfold MAX_PLAYERS; lia).
  destruct H01 as [H0 H1].
  destruct (_ && _); [exact HS|].
  pose proof (for_ret_invariant Steps (CheckHits_body 0 1)
    (λ i h, Steps_CheckHits_body 0 1 i h ltac:(done) H0 H1)
    MAX_PROJECTILES 0%nat g HS) as HA.
  destruct (for_ret _ _ (CheckHits_body 0 1) g) as [g1|g1];
    cbn [ctl_holds] in HA; [|done].
  pose proof (for_ret_invariant Steps (CheckHits_body 1 0)
    (λ i h, Steps_CheckHits_body 1 0 i h ltac:(done) H1 H0)
    MAX_PROJECTILES 0%nat g1 HA) as HB.
  by destruct (for_ret _ _ (CheckHits_body 1 0) g1).
Qed.

Lemma Steps_Step kb g : Steps g → Steps (Step kb g).
Proof.
  intros HS. unfold Step. destruct (gs_gameOver g); cbn [negb]; [done|].
  by apply Steps_CheckHits, Steps_UpdateProjectiles, Steps_UpdateShips,
    Steps_HandleInput.
Qed.

(** ** Health never rises *)

Lemma hp_within_upper lo a0 b0 a1 b1 g :
  a0 <= a1 → b0 <= b1 → hp_within lo a0 b0 g → hp_within lo a1 b1 g.
Proof.
  intros Ha Hb (Hl & H0 & H1 & Ho).
  split; [done|]. split; [lia|]. split; [lia|done].
Qed.

Lemma s_hp_UpdateProjectiles g i :
  wf g → (i < MAX_PLAYERS)%nat →
  s_hp (ship_of i (UpdateProjectiles g)) = s_hp (ship_of i g).
Proof. intros Hwf Hi. by rewrite ship_of_UpdateProjectiles. Qed.

Lemma hp_UpdateProjectiles lo a0 b0 g :
  wf g → hp_within lo a0 b0 g → hp_within lo a0 b0 (UpdateProjectiles g).
Proof.
  intros Hwf (Hl & H0 & H1 & Ho).
  assert (H01 : (0 < MAX_PLAYERS)%nat ∧ (1 < MAX_PLAYERS)%nat)
    by (unfold MAX_PLAYERS; lia).
  destruct H01 as [Hi0 Hi1].
  split; [by destruct (wf_UpdateProjectiles _ Hwf)|].
  unfold over_iff_dead.
  rewrite !s_hp_UpdateProjectiles, gs_gameOver_UpdateProjectiles by done.
  split; [exact H0|]. split; [exact H1|exact Ho].
Qed.

Lemma hp_Step kb g :
  wf g →
  hp_within (-1) 3 3 g →
  hp_within (-1) (s_hp (ship_of 0 g)) (s_hp (ship_of 1 g)) (Step kb g).
Proof.
  intros Hwf (Hl & H0 & H1 & Hover).
  assert (H01 : (0 < MAX_PLAYERS)%nat ∧ (1 < MAX_PLAYERS)%nat)
    by (unfold MAX_PLAYERS; lia).
  destruct H01 as [Hi0 Hi1].
  unfold Step. destruct (gs_gameOver g) eqn:Hrun; cbn [negb].
  { split; [done|]. split; [lia|]. split; [lia|]. exact Hover. }
  assert (Halive : 1 <= s_hp (ship_of 0 g) ∧ 1 <= s_hp (ship_of 1 g)).
  { unfold over_iff_dead in Hover. rewrite Hrun in Hover.
    destruct (Z.le_gt_cases (s_hp (ship_of 0 g)) 0) as [Hd|?];
      [by destruct Hover as [_ Hover]; discriminate Hover; left|].
    destruct (Z.le_gt_cases (s_hp (ship_of 1 g)) 0) as [Hd|?];
      [by destruct Hover as [_ Hover]; discriminate Hover; right|].
    lia. }
  destruct Halive as [Ha Hb].
  set (a0 := s_hp (ship_of 0 g)) in *. set (b0 := s_hp (ship_of 1 g)) in *.
  assert (Ha0 : a0 <= INT_MAX) by (unfold INT_MAX; lia).
  assert (Hb0 : b0 <= INT_MAX) by (unfold INT_MAX; lia).
  pose proof (wf_HandleInput kb g Hwf) as Hwf1.
  assert (H1' : hp_within 1 a0 b0 (HandleInput kb g)).
  { split; [by destruct Hwf1|]. unfold over_iff_dead.
    rewrite !s_hp_HandleInput, gs_gameOver_HandleInput, Hrun by done.
    fold a0 b0. split; [lia|]. split; [lia|].
    split; [discriminate|lia]. }
  pose proof (hp_UpdateShips _ a0 b0 Ha0 Hb0
    ltac:(by rewrite gs_gameOver_HandleInput) H1') as H2.
  pose proof (wf_UpdateShips _ Hwf1) as Hwf2.
  assert (H3 : hp_within 0 a0 b0 (UpdateProjectiles (UpdateShips (HandleInput kb g)))).
  { by apply hp_UpdateProjectiles. }
  by apply hp_CheckHits.
Qed.

Lemma Sane_Step kb g : Sane g → Sane (Step kb g).
Proof.
  intros (HI & HS & Hhp). split; [by apply Inv_Step|].
  split; [by apply Steps_Step|].
  pose proof Hhp as (_ & H0 & H1 & _).
  eapply hp_within_upper; [| |apply hp_Step; [by apply Inv_wf|done]]; lia.
Qed.

Lemma Sane_run kbs g : Sane g → Sane (run kbs g).
Proof.
  revert g. induction kbs as [|kb kbs IH]; intros g HS; simpl; [done|].
  by apply IH, Sane_Step.
Qed.

Lemma ship_steps_fresh cx cy h :
  ship_steps (mkShip cx cy h 0 0 (replicate MAX_PROJECTILES idle)).
Proof.
  split; [unfold unit_step; cbn; lia|]. split; [unfold unit_step; cbn; lia|].
  cbn [s_projectiles]. apply Forall_replicate. intros Hact. discriminate Hact.
Qed.

Lemma Sane_InitGame : Sane InitGame.
Proof.
  assert (E0 : ship_of 0 InitGame = mkShip 2 2 3 0 0 (replicate MAX_PROJECTILES idle))
    by (vm_compute; reflexivity).
  assert (E1 : ship_of 1 InitGame = mkShip 18 8 3 0 0 (replicate MAX_PROJECTILES idle))
    by (vm_compute; reflexivity).
  split; [apply Inv_InitGame|]. split.
  - split; [apply Inv_wf, Inv_InitGame|].
    rewrite E0, E1. split; apply ship_steps_fresh.
  - split; [reflexivity|]. unfold over_iff_dead. rewrite E0, E1.
    cbn [s_hp]. split; [lia|]. split; [lia|].
    split; [intros Ht; vm_compute in Ht; discriminate Ht | lia].
Qed.

(** ** Health, the flag and the directions in play *)

(** X1: in every state of a game played from the start, the health of each
    ship is between -1 and 3. *)
Theorem health_stays_between_minus1_and_3 kbs :
  let g := run kbs InitGame in
  -1 <= s_hp (ship_of 0 g) <= 3 ∧ -1 <= s_hp (ship_of 1 g) <= 3.
Proof.
  intros g. subst g.
  destruct (Sane_run kbs InitGame Sane_InitGame) as (_ & _ & _ & H0 & H1 & _).
  by split.
Qed.

(** X2: in every state of a game played from the start, [gameOver] is set
    exactly when some ship has no health left. *)
Theorem gameOver_iff_some_ship_dead kbs :
  let g := run kbs InitGame in
  gs_gameOver g = true ↔ s_hp (ship_of 0 g) <= 0 ∨ s_hp (ship_of 1 g) <= 0.
Proof.
  intros g. subst g.
  by destruct (Sane_run kbs InitGame Sane_InitGame) as (_ & _ & _ & _ & _ & H).
Qed.

(** X3: a frame never raises the health of a ship. *)
Theorem health_never_rises kbs kb :
  let g := run kbs InitGame in
  s_hp (ship_of 0 (Step kb g)) <= s_hp (ship_of 0 g) ∧
  s_hp (ship_of 1 (Step kb g)) <= s_hp (ship_of 1 g).
Proof.
  intros g. subst g.
  destruct (Sane_run kbs InitGame Sane_InitGame) as (HI & _ & Hhp).
  destruct (hp_Step kb _ (Inv_wf _ HI) Hhp) as (_ & H0 & H1 & _).
  split; lia.
Qed.

(** X5: every active projectile of a game played from the start flies one
    cell per frame along at least one axis: its direction has components in
    -1..1 and is not (0,0). *)
Theorem active_projectiles_keep_moving kbs i j :
  (i < MAX_PLAYERS)%nat → (j < MAX_PROJECTILES)%nat →
  let p := projectile_of i j (run kbs InitGame) in
  p_active p = true →
  -1 <= p_dx p <= 1 ∧ -1 <= p_dy p <= 1 ∧ (p_dx p ≠ 0 ∨ p_dy p ≠ 0).
Proof.
  intros Hi Hj p Hact. subst p.
  destruct (Sane_run kbs InitGame Sane_InitGame) as (_ & (Hwf & H0 & H1) & _).
  assert (Hs : ship_steps (ship_of i (run kbs InitGame))).
  { unfold MAX_PLAYERS in Hi. destruct i as [|[|i]]; [done|done|lia]. }
  destruct Hs as (_ & _ & Hps). unfold projectile_of in *.
  eapply (Forall_lookup_total_1 dir_ok) in Hps; [by apply Hps|].
  rewrite wf_ship_of by done. exact Hj.
Qed.

Lemma active_projectiles_keep_moving_witness :
  projectile_of 0 0 (run skirmish InitGame) = mkProjectile 4 2 1 0 true ∧
  (-1 <= 1 <= 1 ∧ -1 <= 0 <= 1 ∧ (1 ≠ 0 ∨ 0 ≠ 0)).
Proof.
  assert (Hp : projectile_of 0 0 (run skirmish InitGame)
               = mkProjectile 4 2 1 0 true) by (vm_compute; reflexivity).
  split; [exact Hp|].
  assert (Hi : (0 < MAX_PLAYERS)%nat) by (unfold MAX_PLAYERS; lia).
  assert (Hj : (0 < MAX_PROJECTILES)%nat) by (unfold MAX_PROJECTILES; lia).
  pose proof (active_projectiles_keep_moving skirmish 0 0 Hi Hj) as H.
  cbv zeta in H. rewrite Hp in H. apply H. reflexivity.
Defined.

(** ** What hit resolution leaves alone *)

Lemma names_upd_ship i f g :
  pl_name <$> gs_players (upd_ship i f g) = pl_name <$> gs_players g.
Proof.
  unfold upd_ship, set_players; cbn [gs_players].
  generalize (gs_players g) as pls. intros pls. revert i.
  induction pls as [|pl pls IH]; intros [|i]; cbn; f_equal; auto.
Qed.

Lemma quenched_refl ps : Forall2 quenched ps ps.
Proof. induction ps; constructor; auto. by left. Qed.

Lemma quenched_off p p' : quenched p p' → quenched p (set_active false p').
Proof. intros [->| ->]; right; [done|by destruct p]. Qed.

Lemma ship_hit_frame_refl s : ship_hit_frame s s.
Proof. repeat split. apply quenched_refl. Qed.

Lemma hit_frame_refl g : length (gs_players g) = MAX_PLAYERS → hit_frame g g.
Proof. intros Hl. repeat split; try done; apply quenched_refl. Qed.

Lemma hit_frame_CheckHits_body g a b i h :
  a ≠ b → (a < MAX_PLAYERS)%nat → (b < MAX_PLAYERS)%nat →
  hit_frame g h → ctl_holds (hit_frame g) (CheckHits_body a b i h).
Proof.
  intros Hab Ha Hb Hh. unfold CheckHits_body.
  destruct (p_active _ && _ && _); [|exact Hh].
  pose proof Hh as (Hl & Hn & Hm & H0 & H1).
  destruct (ship_of_hit a b i h Hab Ha Hb Hl) as (Eb & Ea & Hl' & _).
  set (h' := upd_projectile a i (set_active false) _) in *.
  assert (Hshooter : ∀ s, ship_hit_frame s (ship_of a h) →
    ship_hit_frame s (set_projectiles
      (alter (set_active false) i (s_projectiles (ship_of a h))) (ship_of a h))).
  { intros s (? & ? & ? & ? & Hps). repeat split; try done.
    cbn [set_projectiles s_projectiles]. apply Forall2_alter_r; [done|].
    intros p p' _ _. apply quenched_off. }
  assert (Htarget : ∀ s, ship_hit_frame s (ship_of b h) →
    ship_hit_frame s (set_hp (int_dec (s_hp (ship_of b h))) (ship_of b h))).
  { by intros s (? & ? & ? & ? & Hps). }
  assert (Hh' : hit_frame g h').
  { split; [done|]. split.
    { subst h'. unfold upd_projectile. by rewrite !names_upd_ship. }
    split; [done|].
    unfold MAX_PLAYERS in Ha, Hb.
    assert (Hcases : (a = 0%nat ∧ b = 1%nat) ∨ (a = 1%nat ∧ b = 0%nat)) by lia.
    destruct Hcases as [[-> ->]|[-> ->]]; rewrite Ea, Eb; split; auto. }
  destruct (_ <=? 0); exact Hh'.
Qed.

Lemma hit_frame_CheckHits g :
  length (gs_players g) = MAX_PLAYERS → hit_frame g (CheckHits g).
Proof.
  intros Hl. pose proof (hit_frame_refl g Hl) as Hg. unfold CheckHits.
  assert (H01 : (0 < MAX_PLAYERS)%nat ∧ (1 < MAX_PLAYERS)%nat)
    by (unfold MAX_PLAYERS; lia).
  destruct H01 as [H0 H1].
  destruct (_ && _); [exact Hg|].
  pose proof (for_ret_invariant (hit_frame g) (CheckHits_body 0 1)
    (λ i h, hit_frame_CheckHits_body g 0 1 i h ltac:(done) H0 H1)
    MAX_PROJECTILES 0%nat g Hg) as HA.
  destruct (for_ret _ _ (CheckHits_body 0 1) g) as [g1|g1];
    cbn [ctl_holds] in HA; [|done].
  pose proof (for_ret_invariant (hit_frame g) (CheckHits_body 1 0)
    (λ i h, hit_frame_CheckHits_body g 1 0 i h ltac:(done) H1 H0)
    MAX_PROJECTILES 0%nat g1 HA) as HB.
  by destruct (for_ret _ _ (CheckHits_body 1 0) g1).
Qed.

(** X6: [CheckHits] touches health, active flags and the game-over flag
    only: the names, the map, both ships' cells and velocities and every
    slot's coordinates and direction are as before, and a slot's active flag
    is either kept or cleared. *)
Theorem CheckHits_changes_hits_only g :
  length (gs_players g) = MAX_PLAYERS →
  hit_frame g (CheckHits g).
Proof. apply hit_frame_CheckHits. Qed.

Lemma CheckHits_changes_hits_only_witness :
  length (gs_players friendly_fire) = MAX_PLAYERS ∧
  hit_frame friendly_fire (CheckHits friendly_fire).
Proof.
  assert (Hl : length (gs_players friendly_fire) = MAX_PLAYERS) by reflexivity.
  split; [exact Hl|]. exact (CheckHits_changes_hits_only friendly_fire Hl).
Defined.

(** ** A frame moves a ship by its velocity or not at all *)

Lemma ship_hit_frame_pos s s' :
  ship_hit_frame s s' → s_x s' = s_x s ∧ s_y s' = s_y s.
Proof. by intros (? & ? & _). Qed.

Lemma hit_frame_ship_of g g' i :
  (i < MAX_PLAYERS)%nat → hit_frame g g' →
  ship_hit_frame (ship_of i g) (ship_of i g').
Proof.
  intros Hi (_ & _ & _ & H0 & H1). unfold MAX_PLAYERS in Hi.
  destruct i as [|[|i]]; [done|done|lia].
Qed.

Lemma Step_running kb g :
  gs_gameOver g = false →
  Step kb g = CheckHits (UpdateProjectiles (UpdateShips (HandleInput kb g))).
Proof. intros Hrun. unfold Step. by rewrite Hrun. Qed.

Lemma pos_CheckHits g i :
  length (gs_players g) = MAX_PLAYERS → (i < MAX_PLAYERS)%nat →
  s_x (ship_of i (CheckHits g)) = s_x (ship_of i g) ∧
  s_y (ship_of i (CheckHits g)) = s_y (ship_of i g).
Proof.
  intros Hl Hi.
  by apply ship_hit_frame_pos, hit_frame_ship_of, hit_frame_CheckHits.
Qed.

Lemma pos_UpdateProjectiles g i :
  wf g → (i < MAX_PLAYERS)%nat →
  s_x (ship_of i (UpdateProjectiles g)) = s_x (ship_of i g) ∧
  s_y (ship_of i (UpdateProjectiles g)) = s_y (ship_of i g).
Proof. intros Hwf Hi. by rewrite ship_of_UpdateProjectiles. Qed.

Lemma frame_moves_ship kb g i :
  Inv g → (i < MAX_PLAYERS)%nat →
  let s := ship_of i g in
  let s' := ship_of i (Step kb g) in
  let tx := s_x s + intent_vx kb i in
  let ty := s_y s + intent_vy kb i in
  gs_gameOver g = false →
  (is_blocking (gs_map g) tx ty → s_x s' = s_x s ∧ s_y s' = s_y s) ∧
  (¬ is_blocking (gs_map g) tx ty → s_x s' = tx ∧ s_y s' = ty) ∧
  -1 <= s_x s' - s_x s <= 1 ∧ -1 <= s_y s' - s_y s <= 1.
Proof.
  intros HI Hi s s' tx ty Hrun.
  pose proof (Inv_wf _ HI) as Hwf.
  pose proof (Inv_HandleInput kb g HI) as HI1.
  pose proof (Inv_UpdateShips _ HI1) as HI2.
  pose proof (Inv_UpdateProjectiles _ HI2) as HI3.
  assert (Hs' : s_x s' = s_x (move_ship (gs_map g) (ship_of i (HandleInput kb g))) ∧
                s_y s' = s_y (move_ship (gs_map g) (ship_of i (HandleInput kb g)))).
  { subst s'. rewrite Step_running by done.
    destruct (pos_CheckHits _ i (proj1 HI3) Hi) as [-> ->].
    destruct (pos_UpdateProjectiles _ i (Inv_wf _ HI2) Hi) as [-> ->].
    rewrite ship_of_UpdateShips by (by destruct HI1 || done).
    by rewrite gs_map_HandleInput. }
  assert (E1 : s_x (ship_of i (HandleInput kb g)) = s_x s ∧
               s_y (ship_of i (HandleInput kb g)) = s_y s ∧
               s_vx (ship_of i (HandleInput kb g)) = intent_vx kb i ∧
               s_vy (ship_of i (HandleInput kb g)) = intent_vy kb i).
  { rewrite ship_of_HandleInput by done. cbv zeta. fold s.
    destruct (IsKeyPressed kb (trigger i)); [|done].
    unfold fire_ship. by destruct (first_free _). }
  destruct E1 as (Ex & Ey & Evx & Evy).
  destruct (Inv_ship_of g i HI Hi) as ((Hrx & Hry) & _). fold s in Hrx, Hry.
  pose proof (axis_unit (IsKeyDown kb (key_left i)) (IsKeyDown kb (key_right i))) as Hux.
  pose proof (axis_unit (IsKeyDown kb (key_up i)) (IsKeyDown kb (key_down i))) as Huy.
  fold (intent_vx kb i) in Hux. fold (intent_vy kb i) in Huy.
  unfold unit_step, in_range, MAP_WIDTH, MAP_HEIGHT in *.
  unfold move_ship in Hs'. rewrite Ex, Ey, Evx, Evy in Hs'.
  rewrite !int_add_fits in Hs' by (unfold fits, INT_MIN, INT_MAX; lia).
  fold tx ty in Hs'. destruct Hs' as [Hsx Hsy].
  destruct (blocked (gs_map g) tx ty) eqn:Hb;
    cbn [set_hp set_pos s_x s_y] in Hsx, Hsy; rewrite ?Ex in Hsx; rewrite ?Ey in Hsy.
  - apply blocked_true in Hb.
    split; [done|]. split; [intros Hnb; by destruct Hnb|]. lia.
  - split; [intros Hb'; apply blocked_true in Hb'; congruence|].
    split; [done|]. subst tx ty. lia.
Qed.

(** X4: in a running game played from the start, one frame takes a ship to
    the cell its position plus this frame's key velocity names when that cell
    is not blocking, and leaves it where it was when the cell is blocking;
    either way it ends at most one cell away along each axis. *)
Theorem frame_moves_ship_by_key_velocity kbs kb i :
  (i < MAX_PLAYERS)%nat →
  let g := run kbs InitGame in
  let s := ship_of i g in
  let s' := ship_of i (Step kb g) in
  let tx := s_x s + intent_vx kb i in
  let ty := s_y s + intent_vy kb i in
  gs_gameOver g = false →
  (is_blocking (gs_map g) tx ty → s_x s' = s_x s ∧ s_y s' = s_y s) ∧
  (¬ is_blocking (gs_map g) tx ty → s_x s' = tx ∧ s_y s' = ty) ∧
  -1 <= s_x s' - s_x s <= 1 ∧ -1 <= s_y s' - s_y s <= 1.
Proof.
  intros Hi. cbv zeta.
  apply frame_moves_ship; [apply Inv_run, Inv_InitGame|exact Hi].
Qed.

Lemma frame_moves_ship_by_key_velocity_witness :
  gs_gameOver (run skirmish InitGame) = false ∧
  s_x (ship_of 0 (run skirmish InitGame)) = 3 ∧
  s_y (ship_of 0 (run skirmish InitGame)) = 3 ∧
  s_x (ship_of 0 (Step kb_left (run skirmish InitGame))) = 2 ∧
  s_y (ship_of 0 (Step kb_left (run skirmish InitGame))) = 3.
Proof.
  assert (Hrun : gs_gameOver (run skirmish InitGame) = false)
    by (vm_compute; reflexivity).
  assert (Hx : s_x (ship_of 0 (run skirmish InitGame)) = 3)
    by (vm_compute; reflexivity).
  assert (Hy : s_y (ship_of 0 (run skirmish InitGame)) = 3)
    by (vm_compute; reflexivity).
  assert (Hm : gs_map (run skirmish InitGame) = bay)
    by (vm_compute; reflexivity).
  assert (Hvx : intent_vx kb_left 0 = -1) by (vm_compute; reflexivity).
  assert (Hvy : intent_vy kb_left 0 = 0) by (vm_compute; reflexivity).
  split; [exact Hrun|]. split; [exact Hx|]. split; [exact Hy|].
  assert (Hi : (0 < MAX_PLAYERS)%nat) by (unfold MAX_PLAYERS; lia).
  pose proof (frame_moves_ship_by_key_velocity skirmish kb_left 0 Hi) as H.
  cbv zeta in H. specialize (H Hrun).
  rewrite Hx, Hy, Hm, Hvx, Hvy in H.
  destruct H as (_ & Hfree & _).
  apply Hfree. intros Hb. apply blocked_true in Hb.
  vm_compute in Hb. discriminate Hb.
Defined.

(** ** Only the opponent's shots count *)

Lemma quenched_lookup_total ps ps' j :
  Forall2 quenched ps ps' → quenched (ps !!! j) (ps' !!! j).
Proof.
  intros H. rewrite !list_lookup_total_alt.
  apply Forall2_lookup with (i := j) in H.
  destruct H as [p p' Hq|]; [exact Hq|by left].
Qed.

Lemma hit_test_quenched g h a b j :
  (a < MAX_PLAYERS)%nat → (b < MAX_PLAYERS)%nat →
  hit_frame g h → hit_test a b j g = false → hit_test a b j h = false.
Proof.
  intros Ha Hb Hgh Hno.
  destruct (hit_frame_ship_of g h a Ha Hgh) as (_ & _ & _ & _ & Hps).
  destruct (hit_frame_ship_of g h b Hb Hgh) as (Hx & Hy & _).
  unfold hit_test, projectile_of in *. rewrite Hx, Hy.
  destruct (quenched_lookup_total _ _ j Hps) as [-> | ->]; [done|].
  reflexivity.
Qed.

Lemma CheckHits_body_miss a b i h :
  hit_test a b i h = false → CheckHits_body a b i h = Running h.
Proof. intros Hno. unfold CheckHits_body. unfold hit_test in Hno. by rewrite Hno. Qed.

Lemma spared_CheckHits_body g b x y i h :
  (b < MAX_PLAYERS)%nat →
  (x = opponent b ∧ y = b) ∨ (x = b ∧ y = opponent b) →
  (∀ j, hit_test (opponent b) b j g = false) →
  hit_frame g h ∧ s_hp (ship_of b h) = s_hp (ship_of b g) →
  ctl_holds (λ h', hit_frame g h' ∧ s_hp (ship_of b h') = s_hp (ship_of b g))
    (CheckHits_body x y i h).
Proof.
  intros Hb Hxy Hno [Hgh Hhp].
  assert (Ho : (opponent b < MAX_PLAYERS)%nat ∧ opponent b ≠ b).
  { unfold MAX_PLAYERS in *. destruct b as [|[|b]]; cbn; lia. }
  destruct Ho as [Ho Hne].
  destruct Hxy as [[-> ->]|[-> ->]].
  - rewrite CheckHits_body_miss; [by split|].
    by apply (hit_test_quenched g).
  - pose proof (hit_frame_CheckHits_body g b (opponent b) i h
      ltac:(done) Hb Ho Hgh) as Hframe.
    unfold CheckHits_body in *.
    destruct (p_active _ && _ && _); [|by split].
    destruct (ship_of_hit b (opponent b) i h ltac:(done) Hb Ho (proj1 Hgh))
      as (_ & Ea & _ & _).
    set (h' := upd_projectile b i (set_active false) _) in *.
    assert (Hhp' : s_hp (ship_of b h') = s_hp (ship_of b g)) by by rewrite Ea.
    destruct (_ <=? 0); cbn [ctl_holds] in *; by split.
Qed.

(** X7: [CheckHits] never takes health from a ship unless a shot of the
    other ship passes the hit test against it: the ship's own slots, whatever
    they hold and wherever they are, do not matter. *)
Theorem CheckHits_spares_ship_without_enemy_shot g b :
  length (gs_players g) = MAX_PLAYERS → (b < MAX_PLAYERS)%nat →
  (∀ j, hit_test (opponent b) b j g = false) →
  s_hp (ship_of b (CheckHits g)) = s_hp (ship_of b g).
Proof.
  intros Hl Hb Hno.
  set (P := λ h', hit_frame g h' ∧ s_hp (ship_of b h') = s_hp (ship_of b g)).
  assert (Hg : P g) by (split; [by apply hit_frame_refl|done]).
  assert (Hcases : b = 0%nat ∨ b = 1%nat) by (unfold MAX_PLAYERS in Hb; lia).
  assert (H01 : ctl_holds P (for_ret MAX_PROJECTILES 0 (CheckHits_body 0 1) g)).
  { apply for_ret_invariant; [|exact Hg]. intros i h Hh.
    apply (spared_CheckHits_body g b 0 1 i h Hb); [|done|done].
    destruct Hcases as [-> | ->]; [by right|by left]. }
  unfold CheckHits. destruct (_ && _); [done|].
  destruct (for_ret _ _ (CheckHits_body 0 1) g) as [g1|g1];
    cbn [ctl_holds] in H01; [|by destruct H01].
  assert (H10 : ctl_holds P (for_ret MAX_PROJECTILES 0 (CheckHits_body 1 0) g1)).
  { apply for_ret_invariant; [|exact H01]. intros i h Hh.
    apply (spared_CheckHits_body g b 1 0 i h Hb); [|done|done].
    destruct Hcases as [-> | ->]; [by left|by right]. }
  destruct (for_ret _ _ (CheckHits_body 1 0) g1) as [g2|g2];
    cbn [ctl_holds] in H10; by destruct H10.
Qed.

Lemma CheckHits_spares_ship_without_enemy_shot_witness :
  hit_test 0 0 0 friendly_fire = true ∧
  s_hp (ship_of 0 friendly_fire) = 2 ∧
  s_hp (ship_of 0 (CheckHits friendly_fire)) = 2.
Proof.
  assert (Hown : hit_test 0 0 0 friendly_fire = true) by (vm_compute; reflexivity).
  assert (Hhp : s_hp (ship_of 0 friendly_fire) = 2) by (vm_compute; reflexivity).
  split; [exact Hown|]. split; [exact Hhp|].
  assert (Hl : length (gs_players friendly_fire) = MAX_PLAYERS) by reflexivity.
  assert (Hb : (0 < MAX_PLAYERS)%nat) by (unfold MAX_PLAYERS; lia).
  rewrite (CheckHits_spares_ship_without_enemy_shot friendly_fire 0 Hl Hb).
  - exact Hhp.
  - intros j. unfold hit_test, projectile_of.
    assert (Hidle : ∀ k, p_active (s_projectiles (ship_of (opponent 0) friendly_fire) !!! k) = false).
    { intros k. do 5 (destruct k as [|k]; [reflexivity|]). reflexivity. }
    by rewrite Hidle.
Defined.

(** ** A shot on the enemy's cell does not survive hit resolution *)

Lemma for_ret_hit_frame a b n i h :
  a ≠ b → (a < MAX_PLAYERS)%nat → (b < MAX_PLAYERS)%nat →
  length (gs_players h) = MAX_PLAYERS →
  ctl_holds (hit_frame h) (for_ret n i (CheckHits_body a b) h).
Proof.
  intros Hab Ha Hb Hl. apply for_ret_invariant; [|by apply hit_frame_refl].
  intros k h' Hh'. by apply hit_frame_CheckHits_body.
Qed.

Lemma for_ret_Returned_over a b n i h h' :
  for_ret n i (CheckHits_body a b) h = Returned h' → gs_gameOver h' = true.
Proof.
  intros Hret.
  pose proof (for_ret_invariant2 (λ _, True) (λ h', gs_gameOver h' = true)
    (CheckHits_body a b)) as Hinv.
  specialize (Hinv ltac:(intros k x _; unfold CheckHits_body;
    destruct (p_active _ && _ && _); [destruct (_ <=? 0)|]; done) n i h I).
  by rewrite Hret in Hinv.
Qed.

Lemma hit_test_after_hit a b i h :
  a ≠ b → (a < MAX_PLAYERS)%nat → (b < MAX_PLAYERS)%nat →
  length (gs_players h) = MAX_PLAYERS →
  hit_test a b i
    (upd_projectile a i (set_active false)
       (upd_ship b (λ s, set_hp (int_dec (s_hp s)) s) h)) = false.
Proof.
  intros Hab Ha Hb Hl.
  destruct (ship_of_hit a b i h Hab Ha Hb Hl) as (_ & Ea & _ & _).
  unfold hit_test, projectile_of. rewrite Ea. cbn [set_projectiles s_projectiles].
  destruct (decide (i < length (s_projectiles (ship_of a h)))%nat) as [Hi|Hi].
  - by rewrite list_lookup_total_alter_eq.
  - rewrite list_lookup_total_alt, list_lookup_alter_eq, lookup_ge_None_2 by lia.
    reflexivity.
Qed.

Lemma loop_clears a b :
  a ≠ b → (a < MAX_PLAYERS)%nat → (b < MAX_PLAYERS)%nat →
  ∀ n i h h',
    length (gs_players h) = MAX_PLAYERS →
    for_ret n i (CheckHits_body a b) h = Running h' →
    ∀ j, (i <= j < i + n)%nat → hit_test a b j h' = false.
Proof.
  intros Hab Ha Hb. induction n as [|n IH]; intros i h h' Hl Hrun j Hj; [lia|].
  cbn [for_ret] in Hrun.
  destruct (CheckHits_body a b i h) as [h1|h1] eqn:Hbody; [|discriminate Hrun].
  assert (Hl1 : length (gs_players h1) = MAX_PLAYERS).
  { pose proof (hit_frame_CheckHits_body h a b i h Hab Ha Hb
      (hit_frame_refl h Hl)) as Hf. rewrite Hbody in Hf. by destruct Hf. }
  destruct (decide (j = i)) as [-> | Hne]; [|apply (IH (S i) h1 h'); [done..|lia]].
  assert (Hi1 : hit_test a b i h1 = false).
  { destruct (hit_test a b i h) eqn:Ht.
    - unfold CheckHits_body in Hbody. unfold hit_test in Ht. rewrite Ht in Hbody.
      destruct (_ <=? 0); [discriminate Hbody|].
      injection Hbody as <-. by apply hit_test_after_hit.
    - rewrite CheckHits_body_miss in Hbody by done. by injection Hbody as <-. }
  pose proof (for_ret_hit_frame a b n (S i) h1 Hab Ha Hb Hl1) as Hf.
  rewrite Hrun in Hf. cbn [ctl_holds] in Hf.
  by apply (hit_test_quenched h1).
Qed.

Lemma CheckHits_clears g a b j :
  length (gs_players g) = MAX_PLAYERS →
  a ≠ b → (a < MAX_PLAYERS)%nat → (b < MAX_PLAYERS)%nat →
  (j < MAX_PROJECTILES)%nat →
  gs_gameOver (CheckHits g) = false →
  hit_test a b j (CheckHits g) = false.
Proof.
  intros Hl Hab Ha Hb Hj. unfold CheckHits.
  assert (H01 : (0 < MAX_PLAYERS)%nat ∧ (1 < MAX_PLAYERS)%nat)
    by (unfold MAX_PLAYERS; lia).
  destruct H01 as [H0 H1].
  destruct (_ && _); [intros Hover; discriminate Hover|].
  destruct (for_ret _ _ (CheckHits_body 0 1) g) as [g1|g1] eqn:HA.
  2:{ intros Hover. apply for_ret_Returned_over in HA. congruence. }
  pose proof (for_ret_hit_frame 0 1 MAX_PROJECTILES 0 g ltac:(done) H0 H1 Hl) as Hf1.
  rewrite HA in Hf1. cbn [ctl_holds] in Hf1.
  assert (Hl1 : length (gs_players g1) = MAX_PLAYERS) by by destruct Hf1.
  destruct (for_ret _ _ (CheckHits_body 1 0) g1) as [g2|g2] eqn:HB.
  2:{ intros Hover. apply for_ret_Returned_over in HB. congruence. }
  intros _.
  pose proof (for_ret_hit_frame 1 0 MAX_PROJECTILES 0 g1 ltac:(done) H1 H0 Hl1) as Hf2.
  rewrite HB in Hf2. cbn [ctl_holds] in Hf2.
  unfold MAX_PLAYERS in Ha, Hb.
  assert (Hcases : (a = 0%nat ∧ b = 1%nat) ∨ (a = 1%nat ∧ b = 0%nat)) by lia.
  destruct Hcases as [[-> ->]|[-> ->]].
  - apply (hit_test_quenched g1); [done..|].
    apply (loop_clears 0 1 ltac:(done) H0 H1 _ _ _ _ Hl HA). lia.
  - apply (loop_clears 1 0 ltac:(done) H1 H0 _ _ _ _ Hl1 HB). lia.
Qed.

Lemma Step_frozen_eq kb g : gs_gameOver g = true → Step kb g = g.
Proof. intros Hover. unfold Step. by rewrite Hover. Qed.

Lemma run_snoc kbs kb g : run (kbs ++ [kb]) g = Step kb (run kbs g).
Proof. unfold run. by rewrite fold_left_app. Qed.

Lemma hit_test_InitGame a b j : hit_test a b j InitGame = false.
Proof.
  unfold hit_test, projectile_of.
  assert (Hidle : ∀ i k, p_active (s_projectiles (ship_of i InitGame) !!! k) = false).
  { intros i k. do 3 (destruct i as [|i]; [do 6 (destruct k as [|k]; [reflexivity|]);
      reflexivity|]). do 6 (destruct k as [|k]; [reflexivity|]). reflexivity. }
  by rewrite Hidle.
Qed.

(** X8: between the frames of a running game played from the start no
    active shot is on the opposing ship's cell: every shot that reached it
    was consumed by the hit. *)
Theorem no_active_shot_rests_on_the_enemy kbs a b j :
  a ≠ b → (a < MAX_PLAYERS)%nat → (b < MAX_PLAYERS)%nat →
  (j < MAX_PROJECTILES)%nat →
  let g := run kbs InitGame in
  gs_gameOver g = false →
  hit_test a b j g = false.
Proof.
  intros Hab Ha Hb Hj. cbv zeta.
  destruct kbs as [|kb0 kbs0] using rev_ind; [intros _; apply hit_test_InitGame|].
  clear IHkbs0. rewrite run_snoc. intros Hrun.
  pose proof (Inv_run kbs0 InitGame Inv_InitGame) as HI.
  destruct (gs_gameOver (run kbs0 InitGame)) eqn:Hprev.
  { rewrite Step_frozen_eq in Hrun by done. congruence. }
  rewrite Step_running in * by done.
  apply CheckHits_clears; try done.
  by destruct (Inv_UpdateProjectiles _ (Inv_UpdateShips _ (Inv_HandleInput kb0 _ HI))).
Qed.

Lemma no_active_shot_rests_on_the_enemy_witness :
  gs_gameOver (run skirmish InitGame) = false ∧
  p_active (projectile_of 0 0 (run skirmish InitGame)) = true ∧
  hit_test 0 1 0 (run skirmish InitGame) = false.
Proof.
  assert (Hrun : gs_gameOver (run skirmish InitGame) = false)
    by (vm_compute; reflexivity).
  split; [exact Hrun|]. split; [vm_compute; reflexivity|].
  apply (no_active_shot_rests_on_the_enemy skirmish 0 1 0);
    [done | unfold MAX_PLAYERS; lia | unfold MAX_PLAYERS; lia
     | unfold MAX_PROJECTILES; lia | exact Hrun].
Defined.

(** ** No shot flies for ever *)

Lemma iter_advance_inactive m n p :
  p_active p = false → p_active (Nat.iter n (advance m) p) = false.
Proof.
  intros Hp. induction n as [|n IH]; [done|].
  rewrite Nat.iter_succ. unfold advance at 1. by rewrite IH.
Qed.

Lemma iter_advance_active m n p :
  in_range (p_x p) (p_y p) → unit_step (p_dx p) → unit_step (p_dy p) →
  p_active (Nat.iter n (advance m) p) = true →
  p_x (Nat.iter n (advance m) p) = p_x p + Z.of_nat n * p_dx p ∧
  p_y (Nat.iter n (advance m) p) = p_y p + Z.of_nat n * p_dy p ∧
  p_dx (Nat.iter n (advance m) p) = p_dx p ∧
  p_dy (Nat.iter n (advance m) p) = p_dy p ∧
  in_range (p_x (Nat.iter n (advance m) p)) (p_y (Nat.iter n (advance m) p)).
Proof.
  intros Hr Hdx Hdy. induction n as [|n IH].
  - intros _. cbn. repeat split; try lia; apply Hr.
  - rewrite Nat.iter_succ. set (q := Nat.iter n (advance m) p) in *.
    unfold advance.
    destruct (p_active q) eqn:Hq; [|intros Hact; congruence].
    destruct (IH eq_refl) as (Ex & Ey & Edx & Edy & Hrq).
    assert (Hfx : int_add (p_x q) (p_dx q) = p_x q + p_dx q).
    { apply int_add_fits. unfold fits, INT_MIN, INT_MAX, in_range, unit_step,
        MAP_WIDTH, MAP_HEIGHT in *. lia. }
    assert (Hfy : int_add (p_y q) (p_dy q) = p_y q + p_dy q).
    { apply int_add_fits. unfold fits, INT_MIN, INT_MAX, in_range, unit_step,
        MAP_WIDTH, MAP_HEIGHT in *. lia. }
    rewrite Hfx, Hfy.
    destruct (blocked m (p_x q + p_dx q) (p_y q + p_dy q)) eqn:Hb;
      [intros Hact; discriminate Hact|].
    intros _. cbn [set_ppos p_x p_y p_dx p_dy].
    apply blocked_false in Hb as [Hrn _].
    repeat split; try done; try apply Hrn; rewrite ?Ex, ?Ey, ?Edx, ?Edy; lia.
Qed.

Lemma advance_20_times m p :
  in_range (p_x p) (p_y p) →
  -1 <= p_dx p <= 1 → -1 <= p_dy p <= 1 → (p_dx p ≠ 0 ∨ p_dy p ≠ 0) →
  p_active (Nat.iter 20 (advance m) p) = false.
Proof.
  intros Hr Hdx Hdy Hmove.
  destruct (p_active (Nat.iter 20 (advance m) p)) eqn:Hact; [|done].
  destruct (iter_advance_active m 20 p Hr Hdx Hdy Hact)
    as (Ex & Ey & _ & _ & Hr20).
  rewrite Ex, Ey in Hr20.
  unfold in_range, MAP_WIDTH, MAP_HEIGHT in *. lia.
Qed.

Lemma gameOver_sticky fs g :
  gs_gameOver g = true → gs_gameOver (run fs g) = true.
Proof.
  revert g. induction fs as [|kb fs IH]; intros g Hover; [done|].
  cbn [run fold_left]. apply IH. by rewrite Step_frozen_eq.
Qed.

Lemma projectile_of_HandleInput_quiet kb g i j :
  wf g → (i < MAX_PLAYERS)%nat →
  IsKeyPressed kb (trigger i) = false →
  projectile_of i j (HandleInput kb g) = projectile_of i j g.
Proof.
  intros Hwf Hi Hquiet. unfold projectile_of.
  rewrite ship_of_HandleInput by done. cbv zeta. by rewrite Hquiet.
Qed.

Lemma quenched_projectile_of g g' i j :
  (i < MAX_PLAYERS)%nat → hit_frame g g' →
  quenched (projectile_of i j g) (projectile_of i j g').
Proof.
  intros Hi Hgg'. unfold projectile_of.
  destruct (hit_frame_ship_of g g' i Hi Hgg') as (_ & _ & _ & _ & Hps).
  by apply quenched_lookup_total.
Qed.

(** One quiet frame of a running game: the slot is advanced once and then,
    at most, switched off by a hit. *)
Lemma slot_Step kb g i j :
  Inv g → (i < MAX_PLAYERS)%nat → (j < MAX_PROJECTILES)%nat →
  gs_gameOver g = false →
  IsKeyPressed kb (trigger i) = false →
  quenched (advance (gs_map g) (projectile_of i j g))
           (projectile_of i j (Step kb g)).
Proof.
  intros HI Hi Hj Hrun Hquiet.
  pose proof (Inv_HandleInput kb g HI) as HI1.
  pose proof (Inv_UpdateShips _ HI1) as HI2.
  pose proof (Inv_UpdateProjectiles _ HI2) as HI3.
  rewrite Step_running by done.
  pose proof (quenched_projectile_of _ _ i j Hi
    (hit_frame_CheckHits _ (proj1 HI3))) as Hps.
  rewrite projectile_of_UpdateProjectiles in Hps by (by apply Inv_wf || done).
  rewrite projectile_of_UpdateShips in Hps by (by destruct HI1 || done).
  rewrite gs_map_UpdateShips in Hps by by destruct HI1.
  rewrite gs_map_HandleInput in Hps.
  by rewrite projectile_of_HandleInput_quiet in Hps by (by apply Inv_wf || done).
Qed.

Lemma quiet_flight fs : ∀ g i j,
  Inv g → (i < MAX_PLAYERS)%nat → (j < MAX_PROJECTILES)%nat →
  Forall (λ kb, IsKeyPressed kb (trigger i) = false) fs →
  gs_gameOver (run fs g) = false →
  p_active (projectile_of i j (run fs g)) = true →
  projectile_of i j (run fs g)
  = Nat.iter (length fs) (advance (gs_map g)) (projectile_of i j g).
Proof.
  induction fs as [|kb fs IH]; intros g i j HI Hi Hj Hquiet Hrun Hact; [done|].
  apply Forall_cons in Hquiet as [Hkb Hquiet].
  cbn [run fold_left] in *. fold (run fs (Step kb g)) in *.
  assert (Hrun0 : gs_gameOver g = false).
  { destruct (gs_gameOver g) eqn:Hg; [|done].
    rewrite Step_frozen_eq, gameOver_sticky in Hrun by done. discriminate Hrun. }
  rewrite (IH (Step kb g) i j) by (done || by apply Inv_Step).
  rewrite (IH (Step kb g) i j) in Hact by (done || by apply Inv_Step).
  rewrite gs_map_Step in * by done.
  destruct (slot_Step kb g i j HI Hi Hj Hrun0 Hkb) as [E | E]; rewrite E in *.
  - cbn [length]. by rewrite Nat.iter_succ_r.
  - rewrite iter_advance_inactive in Hact by done. discriminate Hact.
Qed.

(** X9: no shot flies for ever. If a game played from the start is still
    running after twenty more frames in which a player never pressed the
    trigger, every slot of that player is inactive. *)
Theorem slots_are_free_after_20_quiet_frames kbs fs i j :
  (i < MAX_PLAYERS)%nat → (j < MAX_PROJECTILES)%nat →
  length fs = 20%nat →
  Forall (λ kb, IsKeyPressed kb (trigger i) = false) fs →
  gs_gameOver (run fs (run kbs InitGame)) = false →
  p_active (projectile_of i j (run fs (run kbs InitGame))) = false.
Proof.
  intros Hi Hj Hlen Hquiet Hrun.
  destruct (Sane_run kbs InitGame Sane_InitGame) as (HI & (Hwf & H0 & H1) & _).
  destruct (p_active (projectile_of i j (run fs (run kbs InitGame)))) eqn:Hact;
    [|done].
  rewrite quiet_flight, Hlen in Hact by done.
  destruct (p_active (projectile_of i j (run kbs InitGame))) eqn:Hp0.
  - rewrite advance_20_times in Hact; [discriminate Hact|..].
    + destruct (Inv_ship_of _ i HI Hi) as (_ & Hl & Hps).
      eapply (Forall_lookup_total_1 (proj_ok _)) in Hps; [by apply Hps|].
      rewrite Hl. exact Hj.
    + assert (Hs : ship_steps (ship_of i (run kbs InitGame))).
      { unfold MAX_PLAYERS in Hi. destruct i as [|[|i]]; [done|done|lia]. }
      destruct Hs as (_ & _ & Hps).
      eapply (Forall_lookup_total_1 dir_ok) in Hps;
        [by apply Hps | rewrite wf_ship_of by done; exact Hj].
    + assert (Hs : ship_steps (ship_of i (run kbs InitGame))).
      { unfold MAX_PLAYERS in Hi. destruct i as [|[|i]]; [done|done|lia]. }
      destruct Hs as (_ & _ & Hps).
      eapply (Forall_lookup_total_1 dir_ok) in Hps;
        [by apply Hps | rewrite wf_ship_of by done; exact Hj].
    + assert (Hs : ship_steps (ship_of i (run kbs InitGame))).
      { unfold MAX_PLAYERS in Hi. destruct i as [|[|i]]; [done|done|lia]. }
      destruct Hs as (_ & _ & Hps).
      eapply (Forall_lookup_total_1 dir_ok) in Hps;
        [by apply Hps | rewrite wf_ship_of by done; exact Hj].
  - rewrite iter_advance_inactive in Hact by done. discriminate Hact.
Qed.

Lemma slots_are_free_after_20_quiet_frames_witness :
  p_active (projectile_of 0 0 (run skirmish InitGame)) = true ∧
  p_active (projectile_of 0 0 (run (replicate 20 no_keys) (run skirmish InitGame)))
    = false.
Proof.
  split; [vm_compute; reflexivity|].
  apply slots_are_free_after_20_quiet_frames.
  - unfold MAX_PLAYERS; lia.
  - unfold MAX_PROJECTILES; lia.
  - reflexivity.
  - apply Forall_replicate. reflexivity.
  - vm_compute. reflexivity.
Defined.

(** ** The names and the end-of-game text *)

Lemma names_fire_from n i pl g :
  pl_name <$> gs_players (fire_from n i pl g) = pl_name <$> gs_players g.
Proof.
  revert i. induction n as [|n IH]; intros i; cbn [fire_from]; [done|].
  destruct (negb _); [|apply IH].
  unfold upd_projectile. apply names_upd_ship.
Qed.

Lemma names_HandleInput kb g :
  pl_name <$> gs_players (HandleInput kb g) = pl_name <$> gs_players g.
Proof.
  rewrite HandleInput_eq. cbv zeta.
  destruct (IsKeyPressed kb KEY_RIGHT_SHIFT), (IsKeyPressed kb KEY_LEFT_SHIFT);
    unfold fire;
    repeat (rewrite names_fire_from || rewrite names_upd_ship); reflexivity.
Qed.

Lemma names_UpdateShips g :
  length (gs_players g) = MAX_PLAYERS →
  pl_name <$> gs_players (UpdateShips g) = pl_name <$> gs_players g.
Proof.
  intros Hl. rewrite UpdateShips_fmap by done. cbn [gs_players].
  rewrite <- list_fmap_compose. by apply list_fmap_ext.
Qed.

Lemma names_UpdateProjectiles g :
  wf g → pl_name <$> gs_players (UpdateProjectiles g) = pl_name <$> gs_players g.
Proof.
  intros Hwf. rewrite UpdateProjectiles_fmap by done.
  unfold set_players; cbn [gs_players].
  rewrite <- list_fmap_compose. by apply list_fmap_ext.
Qed.

Lemma names_Step kb g :
  Inv g → pl_name <$> gs_players (Step kb g) = pl_name <$> gs_players g.
Proof.
  intros HI. destruct (gs_gameOver g) eqn:Hover.
  { by rewrite Step_frozen_eq. }
  rewrite Step_running by done.
  pose proof (Inv_HandleInput kb g HI) as HI1.
  pose proof (Inv_UpdateShips _ HI1) as HI2.
  pose proof (Inv_UpdateProjectiles _ HI2) as HI3.
  destruct (hit_frame_CheckHits _ (proj1 HI3)) as (_ & -> & _).
  rewrite names_UpdateProjectiles by by apply Inv_wf.
  rewrite names_UpdateShips by by destruct HI1.
  apply names_HandleInput.
Qed.

Lemma names_run kbs g :
  Inv g → pl_name <$> gs_players (run kbs g) = pl_name <$> gs_players g.
Proof.
  revert g. induction kbs as [|kb kbs IH]; intros g HI; [done|].
  cbn [run fold_left]. fold (run kbs (Step kb g)).
  rewrite IH by by apply Inv_Step. by apply names_Step.
Qed.

Lemma name_of g i n :
  pl_name <$> gs_players g = n → pl_name (gs_players g !!! i) = n !!! i.
Proof.
  intros <-. rewrite !list_lookup_total_alt, list_lookup_fmap.
  by destruct (gs_players g !! i).
Qed.

(** X10: in every state of a game played from the start the end-of-game
    text is decided by the two healths alone: none while both ships have
    health left, the tie text when neither has, and otherwise the winner
    text naming the player whose ship still has health. *)
Theorem game_over_text_names_the_survivor kbs :
  let g := run kbs InitGame in
  let hpA := s_hp (ship_of 0 g) in
  let hpB := s_hp (ship_of 1 g) in
  game_over_text g =
    if (0 <? hpA) && (0 <? hpB) then None
    else if (hpA <=? 0) && (hpB <=? 0) then Some "TIE! Nobody survived!"%string
    else if hpA <=? 0 then Some "GAME OVER! Winner: Player2"%string
    else Some "GAME OVER! Winner: Player1"%string.
Proof.
  cbv zeta.
  pose proof (Sane_run kbs InitGame Sane_InitGame) as (HI & _ & _ & _ & _ & Hover).
  pose proof (names_run kbs InitGame Inv_InitGame) as Hn.
  assert (Hn0 : pl_name <$> gs_players InitGame = ["Player1"; "Player2"]%string)
    by (vm_compute; reflexivity).
  rewrite Hn0 in Hn. clear Hn0.
  generalize dependent (run kbs InitGame). intros g HI Hover Hn.
  unfold game_over_text, over_iff_dead in *.
  rewrite (name_of g _ _ Hn).
  destruct (Z.ltb_spec 0 (s_hp (ship_of 0 g))) as [Ha|Ha];
    destruct (Z.ltb_spec 0 (s_hp (ship_of 1 g))) as [Hb|Hb]; cbn [andb].
  - destruct (gs_gameOver g); [|done]. destruct Hover as [Hover _].
    specialize (Hover eq_refl). lia.
  - assert (gs_gameOver g = true) as -> by (apply Hover; lia).
    destruct (Z.leb_spec (s_hp (ship_of 0 g)) 0); [lia|].
    destruct (Z.leb_spec (s_hp (ship_of 1 g)) 0); [|lia]. cbn [andb].
    destruct (Z.gtb_spec (s_hp (ship_of 1 g)) (s_hp (ship_of 0 g))); [lia|].
    reflexivity.
  - assert (gs_gameOver g = true) as -> by (apply Hover; lia).
    destruct (Z.leb_spec (s_hp (ship_of 0 g)) 0); [|lia].
    destruct (Z.leb_spec (s_hp (ship_of 1 g)) 0); [lia|]. cbn [andb].
    destruct (Z.gtb_spec (s_hp (ship_of 1 g)) (s_hp (ship_of 0 g))); [|lia].
    reflexivity.
  - assert (gs_gameOver g = true) as -> by (apply Hover; lia).
    destruct (Z.leb_spec (s_hp (ship_of 0 g)) 0); [|lia].
    destruct (Z.leb_spec (s_hp (ship_of 1 g)) 0); [|lia]. reflexivity.
Qed.

(** ** HandleInput reads this frame's keys only *)

Lemma set_vel_set_vel a b c d s : set_vel a b (set_vel c d s) = set_vel a b s.
Proof. by destruct s. Qed.

(** X11: no velocity persists across frames. Whatever velocity a ship had
    before, [HandleInput] gives the same state: it overwrites both
    components from the keys held in this frame. *)
Theorem HandleInput_forgets_old_velocity kb g pl vx vy :
  (pl < MAX_PLAYERS)%nat →
  HandleInput kb (upd_ship pl (set_vel vx vy) g) = HandleInput kb g.
Proof.
  intros Hpl. rewrite !HandleInput_eq. cbv zeta.
  unfold MAX_PLAYERS in Hpl. destruct pl as [|[|pl]]; [| |lia].
  - rewrite upd_ship_compose.
    rewrite (upd_ship_ext 0 (_ ∘ _)
      (set_vel (axis (IsKeyDown kb KEY_A) (IsKeyDown kb KEY_D))
               (axis (IsKeyDown kb KEY_W) (IsKeyDown kb KEY_S))));
      [reflexivity|]. intros s. apply set_vel_set_vel.
  - rewrite (upd_ship_swap 0 1) by done.
    assert (Hf : ∀ h x, (if IsKeyPressed kb KEY_LEFT_SHIFT
                         then fire 0 (upd_ship 1 h x) else upd_ship 1 h x)
       = upd_ship 1 h (if IsKeyPressed kb KEY_LEFT_SHIFT then fire 0 x else x)).
    { intros h x. destruct (IsKeyPressed kb KEY_LEFT_SHIFT); [|done].
      by apply fire_upd_other. }
    rewrite Hf, upd_ship_compose.
    rewrite (upd_ship_ext 1 (_ ∘ _)
      (set_vel (axis (IsKeyDown kb KEY_LEFT) (IsKeyDown kb KEY_RIGHT))
               (axis (IsKeyDown kb KEY_UP) (IsKeyDown kb KEY_DOWN))));
      [reflexivity|]. intros s. apply set_vel_set_vel.
Qed.

Lemma HandleInput_forgets_old_velocity_witness :
  s_vx (ship_of 1 (upd_ship 1 (set_vel 1 (-1)) InitGame)) = 1 ∧
  HandleInput kb_left (upd_ship 1 (set_vel 1 (-1)) InitGame)
    = HandleInput kb_left InitGame.
Proof.
  split; [vm_compute; reflexivity|].
  apply HandleInput_forgets_old_velocity. unfold MAX_PLAYERS; lia.
Defined.

(** X12: after [HandleInput] a ship's velocity is read off the keys of this
    frame, each axis on its own: the right (down) key gives +1 also when the
    left (up) key is held with it, the left (up) key alone gives -1, no key
    gives 0. Position and health are untouched, and unless the trigger went
    down in this frame the pool is untouched too, however long the trigger
    has been held. *)
Theorem HandleInput_velocity_and_trigger kb g pl :
  wf g → (pl < MAX_PLAYERS)%nat →
  let s := ship_of pl g in
  let s' := ship_of pl (HandleInput kb g) in
  s_vx s' = (if IsKeyDown kb (key_right pl) then 1
             else if IsKeyDown kb (key_left pl) then -1 else 0) ∧
  s_vy s' = (if IsKeyDown kb (key_down pl) then 1
             else if IsKeyDown kb (key_up pl) then -1 else 0) ∧
  s_x s' = s_x s ∧ s_y s' = s_y s ∧ s_hp s' = s_hp s ∧
  (IsKeyPressed kb (trigger pl) = false → s_projectiles s' = s_projectiles s).
Proof.
  intros Hwf Hpl s s'. subst s s'.
  rewrite ship_of_HandleInput by done. cbv zeta.
  unfold intent_vx, intent_vy, axis, MAX_SPEED.
  destruct (IsKeyPressed kb (trigger pl)).
  - unfold fire_ship. destruct (first_free _); repeat split; done.
  - repeat split; done.
Qed.

Lemma HandleInput_velocity_and_trigger_witness :
  s_vx (ship_of 1 (HandleInput kb_both_sides InitGame)) = 1 ∧
  s_vy (ship_of 1 (HandleInput kb_both_sides InitGame)) = 0 ∧
  s_projectiles (ship_of 1 (HandleInput kb_both_sides InitGame))
    = s_projectiles (ship_of 1 InitGame).
Proof.
  assert (Hpl : (1 < MAX_PLAYERS)%nat) by (unfold MAX_PLAYERS; lia).
  destruct (HandleInput_velocity_and_trigger kb_both_sides InitGame 1
    (Inv_wf _ Inv_InitGame) Hpl) as (Hvx & Hvy & _ & _ & _ & Hps).
  split; [exact Hvx|]. split; [exact Hvy|]. apply Hps. reflexivity.
Defined.

(** ** Drawing: what the loops emit *)

Lemma for_loop_emit {A} (f : nat → list A) body :
  (∀ k out, body k out = out ++ f k) →
  ∀ n i out, for_loop n i body out = out ++ (seq i n ≫= f).
Proof.
  intros Hbody. induction n as [|n IH]; intros i out; cbn [for_loop seq].
  - by rewrite app_nil_r.
  - by rewrite IH, Hbody, bind_cons, app_assoc.
Qed.

Lemma DrawGame_parts g :
  DrawGame g =
  DrawBayBackground 1280 640 ++ terrain_scene g ++ shots_scene g ++ ships_scene g.
Proof.
  unfold DrawGame. cbv zeta.
  assert (int_mul MAP_WIDTH SCREEN_SCALE = 1280) as -> by (vm_compute; reflexivity).
  assert (int_mul MAP_HEIGHT SCREEN_SCALE = 640) as -> by (vm_compute; reflexivity).
  generalize (DrawBayBackground 1280 640) as bg. intros bg.
  rewrite (for_loop_emit (ship_cmds g)).
  2:{ intros i out. unfold ship_cmds. destruct (_ >? 0); [|by rewrite app_nil_r].
      by rewrite <- !app_assoc. }
  rewrite (for_loop_emit (λ i, seq 0 MAX_PROJECTILES ≫= slot_cmds g i)).
  2:{ intros i out. apply (for_loop_emit (slot_cmds g i)).
      intros j out'. unfold slot_cmds.
      destruct (p_active _); [done|by rewrite app_nil_r]. }
  rewrite (for_loop_emit (λ r, seq 0 (Z.to_nat MAP_WIDTH) ≫= cell_cmds g r)).
  2:{ intros r out. apply (for_loop_emit (cell_cmds g r)).
      intros c out'. unfold cell_cmds.
      destruct (_ || _); [done|by rewrite app_nil_r]. }
  by rewrite <- !app_assoc.
Qed.

(** ** The net of the background *)

Lemma net_count_spec bound k :
  0 <= bound → (k < net_count bound)%nat ↔ 32 * Z.of_nat k < bound.
Proof.
  intros Hb. unfold net_count.
  pose proof (Z.div_mod (bound + 31) 32 ltac:(lia)) as Hdm.
  pose proof (Z.mod_pos_bound (bound + 31) 32 ltac:(lia)) as Hm.
  split; intros H; lia.
Qed.

Lemma for_step_emit {A} (g : Z → A) bound :
  0 <= bound <= INT_MAX - 32 →
  ∀ fuel k out,
    (net_count bound - k <= fuel)%nat →
    for_step fuel (32 * Z.of_nat k) bound NET_LINE_SPACING
      (λ x out, out ++ [g x]) out
    = out ++ ((λ k', g (32 * Z.of_nat k')) <$> seq k (net_count bound - k)).
Proof.
  intros Hb. induction fuel as [|fuel IH]; intros k out Hfuel; cbn [for_step].
  - assert (net_count bound - k = 0)%nat as -> by lia. by rewrite app_nil_r.
  - destruct (Z.ltb_spec (32 * Z.of_nat k) bound) as [Hlt|Hge].
    + assert (Hk : (k < net_count bound)%nat) by (apply net_count_spec; lia).
      assert (int_add (32 * Z.of_nat k) NET_LINE_SPACING = 32 * Z.of_nat (S k)) as ->.
      { unfold NET_LINE_SPACING. rewrite int_add_fits; [lia|].
        unfold fits, INT_MIN, INT_MAX in *. lia. }
      rewrite IH by lia.
      assert (net_count bound - k = S (net_count bound - S k))%nat as -> by lia.
      cbn [seq fmap list_fmap]. by rewrite <- app_assoc.
    + assert (¬ (k < net_count bound)%nat)
        by (rewrite net_count_spec by lia; lia).
      assert (net_count bound - k = 0)%nat as -> by lia. by rewrite app_nil_r.
Qed.

Lemma for_step_emit0 {A} (g : Z → A) bound :
  0 <= bound <= INT_MAX - 32 →
  ∀ fuel out,
    (net_count bound - 0 <= fuel)%nat →
    for_step fuel 0 bound NET_LINE_SPACING (λ x out, out ++ [g x]) out
    = out ++ ((λ k', g (32 * Z.of_nat k')) <$> seq 0 (net_count bound)).
Proof.
  intros Hb fuel out Hfuel.
  pose proof (for_step_emit g bound Hb fuel 0%nat out Hfuel) as H.
  rewrite Nat.sub_0_r in H at 1. exact H.
Qed.

Lemma for_step_closed w h :
  0 <= w <= INT_MAX - 32 → 0 <= h <= INT_MAX - 32 →
  DrawBayBackground w h =
    [DrawRectangle 0 0 w h BROWN; DrawRectangle 0 0 w h BLUE]
    ++ ((λ k, DrawLine (32 * Z.of_nat k) 0 (32 * Z.of_nat k) h
                (Fade LIGHTGRAY (1 # 2))) <$> seq 0 (net_count w))
    ++ ((λ k, DrawLine 0 (32 * Z.of_nat k) w (32 * Z.of_nat k)
                (Fade LIGHTGRAY (1 # 2))) <$> seq 0 (net_count h)).
Proof.
  intros Hw Hh.
  assert (Hfuel : ∀ b, 0 <= b → (net_count b - 0 <= Z.to_nat b)%nat).
  { intros b Hb. unfold net_count.
    pose proof (Z.div_mod (b + 31) 32 ltac:(lia)) as Hdm.
    pose proof (Z.mod_pos_bound (b + 31) 32 ltac:(lia)) as Hm. lia. }
  unfold DrawBayBackground. cbv zeta.
  rewrite (for_step_emit0 (λ x, DrawLine x 0 x h (Fade LIGHTGRAY (1 # 2))) w Hw)
    by (apply Hfuel; lia).
  rewrite (for_step_emit0 (λ y, DrawLine 0 y w y (Fade LIGHTGRAY (1 # 2))) h Hh)
    by (apply Hfuel; lia).
  by rewrite <- !app_assoc.
Qed.

(** X14: for a width and a height that leave room for one more step of 32
    in an [int], [DrawBayBackground] draws the brown and the blue rectangle
    over the whole area, then one vertical line at every multiple of 32 below
    the width and one horizontal line at every multiple of 32 below the
    height, and nothing else: both loops end with all their lines drawn. *)
Theorem DrawBayBackground_draws_the_whole_net w h :
  0 <= w <= INT_MAX - 32 → 0 <= h <= INT_MAX - 32 →
  DrawBayBackground w h =
    [DrawRectangle 0 0 w h BROWN; DrawRectangle 0 0 w h BLUE]
    ++ ((λ k, DrawLine (32 * Z.of_nat k) 0 (32 * Z.of_nat k) h
                (Fade LIGHTGRAY (1 # 2))) <$> seq 0 (net_count w))
    ++ ((λ k, DrawLine 0 (32 * Z.of_nat k) w (32 * Z.of_nat k)
                (Fade LIGHTGRAY (1 # 2))) <$> seq 0 (net_count h)) ∧
  (∀ k, (k < net_count w)%nat ↔ 32 * Z.of_nat k < w) ∧
  (∀ k, (k < net_count h)%nat ↔ 32 * Z.of_nat k < h).
Proof.
  intros Hw Hh. split; [by apply for_step_closed|].
  split; intros k; apply net_count_spec; lia.
Qed.

Lemma DrawBayBackground_draws_the_whole_net_witness :
  length (DrawBayBackground 1280 640) = 62%nat ∧
  (net_count 1280, net_count 640) = (40%nat, 20%nat).
Proof.
  assert (Hw : 0 <= 1280 <= INT_MAX - 32) by (unfold INT_MAX; lia).
  assert (Hh : 0 <= 640 <= INT_MAX - 32) by (unfold INT_MAX; lia).
  destruct (DrawBayBackground_draws_the_whole_net 1280 640 Hw Hh) as (-> & _ & _).
  split; reflexivity.
Defined.

(** ** Drawing: who is on the scene *)

Lemma elem_of_seq0 n k : k ∈ seq 0 n ↔ (k < n)%nat.
Proof. rewrite elem_of_seq. lia. Qed.

Lemma elem_of_terrain_scene g cmd :
  cmd ∈ terrain_scene g ↔
  ∃ r c, (r < 10)%nat ∧ (c < 20)%nat ∧ cmd ∈ cell_cmds g r c.
Proof.
  unfold terrain_scene. rewrite list_elem_of_bind. split.
  - intros (r & Hc & Hr). apply list_elem_of_bind in Hc as (c & Hcmd & Hc).
    apply elem_of_seq0 in Hr, Hc. exists r, c.
    split; [exact Hr|]. split; [exact Hc|done].
  - intros (r & c & Hr & Hc & Hcmd). exists r. split.
    + apply list_elem_of_bind. exists c. split; [done|].
      apply elem_of_seq0. exact Hc.
    + apply elem_of_seq0. exact Hr.
Qed.

Lemma elem_of_shots_scene g cmd :
  cmd ∈ shots_scene g ↔
  ∃ i j, (i < MAX_PLAYERS)%nat ∧ (j < MAX_PROJECTILES)%nat ∧ cmd ∈ slot_cmds g i j.
Proof.
  unfold shots_scene. rewrite list_elem_of_bind. split.
  - intros (i & Hc & Hi). apply list_elem_of_bind in Hc as (j & Hcmd & Hj).
    apply elem_of_seq0 in Hi, Hj. by exists i, j.
  - intros (i & j & Hi & Hj & Hcmd). exists i. split.
    + apply list_elem_of_bind. exists j. split; [done|]. by apply elem_of_seq0.
    + by apply elem_of_seq0.
Qed.

Lemma elem_of_ships_scene g cmd :
  cmd ∈ ships_scene g ↔ ∃ i, (i < MAX_PLAYERS)%nat ∧ cmd ∈ ship_cmds g i.
Proof.
  unfold ships_scene. rewrite list_elem_of_bind. split.
  - intros (i & Hcmd & Hi). apply elem_of_seq0 in Hi. by exists i.
  - intros (i & Hi & Hcmd). exists i. split; [done|]. by apply elem_of_seq0.
Qed.

Lemma elem_of_background cmd :
  cmd ∈ DrawBayBackground 1280 640 ↔
  cmd = DrawRectangle 0 0 1280 640 BROWN ∨
  cmd = DrawRectangle 0 0 1280 640 BLUE ∨
  (∃ k, (k < 40)%nat ∧
        cmd = DrawLine (32 * Z.of_nat k) 0 (32 * Z.of_nat k) 640
                (Fade LIGHTGRAY (1 # 2))) ∨
  (∃ k, (k < 20)%nat ∧
        cmd = DrawLine 0 (32 * Z.of_nat k) 1280 (32 * Z.of_nat k)
                (Fade LIGHTGRAY (1 # 2))).
Proof.
  assert (Hw : 0 <= 1280 <= INT_MAX - 32) by (unfold INT_MAX; lia).
  assert (Hh : 0 <= 640 <= INT_MAX - 32) by (unfold INT_MAX; lia).
  rewrite (for_step_closed 1280 640 Hw Hh).
  change (net_count 1280) with 40%nat. change (net_count 640) with 20%nat.
  rewrite !elem_of_app, !elem_of_cons, elem_of_nil, !list_elem_of_fmap.
  setoid_rewrite elem_of_seq0. split.
  - intros [[->|[->|[]]]|[(k & -> & Hk)|(k & -> & Hk)]]; eauto 6.
  - intros [->|[->|[(k & Hk & ->)|(k & Hk & ->)]]];
      [left; by left | left; right; by left | right; left; eauto
      | right; right; eauto].
Qed.

Lemma elem_of_DrawGame g cmd :
  cmd ∈ DrawGame g ↔
  cmd ∈ DrawBayBackground 1280 640 ∨ cmd ∈ terrain_scene g ∨
  cmd ∈ shots_scene g ∨ cmd ∈ ships_scene g.
Proof. by rewrite DrawGame_parts, !elem_of_app. Qed.

Lemma pixel_of_cell z :
  0 <= z < MAP_WIDTH → int_mul z SCREEN_SCALE = 64 * z.
Proof.
  intros Hz. unfold int_mul, SCREEN_SCALE, MAP_WIDTH in *.
  rewrite wrap_fits; [lia|]. unfold fits, INT_MIN, INT_MAX. lia.
Qed.

Lemma pixel_plus z d :
  0 <= z < MAP_WIDTH → -64 <= d <= 64 → int_add (64 * z) d = 64 * z + d.
Proof.
  intros Hz Hd. unfold MAP_WIDTH in *.
  apply int_add_fits. unfold fits, INT_MIN, INT_MAX. lia.
Qed.

Lemma slot_cmds_spec g i j cmd :
  Inv g → (i < MAX_PLAYERS)%nat → (j < MAX_PROJECTILES)%nat →
  cmd ∈ slot_cmds g i j ↔
  p_active (projectile_of i j g) = true ∧
  cmd = DrawCircle (64 * p_x (projectile_of i j g) + 32)
                   (64 * p_y (projectile_of i j g) + 32)
                   shot_radius (side_color i).
Proof.
  intros HI Hi Hj. unfold slot_cmds. cbv zeta.
  destruct (p_active (projectile_of i j g)) eqn:Hact.
  - assert (Hr : in_range (p_x (projectile_of i j g)) (p_y (projectile_of i j g))).
    { destruct (Inv_ship_of _ i HI Hi) as (_ & Hl & Hps). unfold projectile_of in *.
      eapply (Forall_lookup_total_1 (proj_ok _)) in Hps; [by apply Hps|].
      rewrite Hl. exact Hj. }
    destruct Hr as [Hx Hy]. unfold MAP_HEIGHT in Hy.
    change (int_div SCREEN_SCALE 2) with 32.
    rewrite !pixel_of_cell, !pixel_plus by (unfold MAP_WIDTH in *; lia).
    rewrite list_elem_of_singleton. split; [by intros ->|by intros [_ ->]].
  - rewrite elem_of_nil. split; [done|]. by intros [? _].
Qed.

Lemma ship_cmds_spec g i cmd :
  Inv g → (i < MAX_PLAYERS)%nat →
  cmd ∈ ship_cmds g i ↔
  0 < s_hp (ship_of i g) ∧
  (cmd = DrawRectangle (64 * s_x (ship_of i g) + 32) (64 * s_y (ship_of i g) + 32)
           32 32 (side_color i) ∨
   cmd = DrawText (side_label i)
           (64 * s_x (ship_of i g) + 40) (64 * s_y (ship_of i g) + 40) 16 WHITE ∨
   cmd = DrawText (snprintf 16 ("HP:" +:+ string_of_int (s_hp (ship_of i g))))
           (64 * s_x (ship_of i g) + 32) (64 * s_y (ship_of i g) + 19) 14 BLACK).
Proof.
  intros HI Hi. unfold ship_cmds. cbv zeta.
  destruct (Inv_ship_of _ i HI Hi) as (((Hx & Hy) & _) & _).
  unfold MAP_HEIGHT in Hy.
  destruct (Z.gtb_spec (s_hp (ship_of i g)) 0) as [Hhp|Hhp].
  - change (int_div SCREEN_SCALE 2) with 32.
    change (int_sub SCREEN_SCALE 32) with 32.
    change (int_div 32 4) with 8. change (int_div 32 2) with 16.
    rewrite !pixel_of_cell by (unfold MAP_WIDTH in *; lia).
    rewrite !pixel_plus by (unfold MAP_WIDTH in *; lia).
    assert (E8 : ∀ z, 0 <= z < 20 → int_add (64 * z + 32) 8 = 64 * z + 40).
    { intros z Hz. rewrite int_add_fits; [lia|]. unfold fits, INT_MIN, INT_MAX. lia. }
    assert (E13 : ∀ z, 0 <= z < 20 → int_sub (64 * z + 32) 13 = 64 * z + 19).
    { intros z Hz. unfold int_sub. rewrite wrap_fits; [lia|].
      unfold fits, INT_MIN, INT_MAX. lia. }
    rewrite !E8, E13 by (unfold MAP_WIDTH in *; lia).
    rewrite !elem_of_cons, elem_of_nil. split.
    + intros [->|[->|[->|[]]]]; (split; [lia|]); auto.
    + intros [_ [->|[->| ->]]]; auto.
  - rewrite elem_of_nil. split; [done|]. intros [? _]. lia.
Qed.

Lemma cell_cmds_spec g r c cmd :
  (r < 10)%nat → (c < 20)%nat →
  cmd ∈ cell_cmds g r c ↔
  classify (gs_map g) (Z.of_nat c) (Z.of_nat r) ≠ Open ∧
  cmd = DrawRectangle (64 * Z.of_nat c) (64 * Z.of_nat r) 64 64 DARKGRAY.
Proof.
  intros Hr Hc. unfold cell_cmds, classify. cbv zeta.
  rewrite !pixel_of_cell by (unfold MAP_WIDTH; lia).
  destruct (Ascii.eqb (map_at (gs_map g) (Z.of_nat r) (Z.of_nat c)) "#");
    [|destruct (Ascii.eqb (map_at (gs_map g) (Z.of_nat r) (Z.of_nat c)) "X")];
    cbn [orb]; rewrite ?list_elem_of_singleton, ?elem_of_nil;
    (split; [try done; by intros -> | try (by intros [_ ->]); by intros [? _]]).
Qed.

Lemma side_color_inj i i' :
  (i < MAX_PLAYERS)%nat → (i' < MAX_PLAYERS)%nat →
  side_color i = side_color i' → i = i'.
Proof.
  unfold MAX_PLAYERS. intros Hi Hi'.
  destruct i as [|[|i]], i' as [|[|i']]; cbn; intros H; try done; lia.
Qed.

(** X15: in a state that keeps ships and shots on open water (every state
    of play does), [DrawGame] draws a circle exactly for the active
    projectiles: one for each, centred on the middle of its cell in its
    side's colour. A slot that is not active is never drawn. *)
Theorem DrawGame_draws_exactly_the_active_shots g cx cy r col :
  Inv g →
  DrawCircle cx cy r col ∈ DrawGame g ↔
  ∃ i j, (i < MAX_PLAYERS)%nat ∧ (j < MAX_PROJECTILES)%nat ∧
         p_active (projectile_of i j g) = true ∧
         cx = 64 * p_x (projectile_of i j g) + 32 ∧
         cy = 64 * p_y (projectile_of i j g) + 32 ∧
         r = shot_radius ∧ col = side_color i.
Proof.
  intros HI. rewrite elem_of_DrawGame, elem_of_background,
    elem_of_terrain_scene, elem_of_shots_scene, elem_of_ships_scene.
  split.
  - intros [Hbg|[(r0 & c0 & Hr & Hc & Hcmd)|[(i & j & Hi & Hj & Hcmd)|(i & Hi & Hcmd)]]].
    + destruct Hbg as [H|[H|[(k & _ & H)|(k & _ & H)]]]; discriminate H.
    + apply cell_cmds_spec in Hcmd as [_ H]; [discriminate H|done..].
    + apply slot_cmds_spec in Hcmd as [Hact H]; [|done..].
      injection H as -> -> -> ->. by exists i, j.
    + apply ship_cmds_spec in Hcmd as [_ [H|[H|H]]]; [discriminate H..|done|done].
  - intros (i & j & Hi & Hj & Hact & -> & -> & -> & ->).
    right; right; left. exists i, j. split; [done|]. split; [done|].
    by apply slot_cmds_spec.
Qed.

Lemma DrawGame_draws_exactly_the_active_shots_witness :
  projectile_of 0 0 (run [kb_move_and_fire] InitGame) = mkProjectile 3 2 1 0 true ∧
  DrawCircle 224 160 shot_radius RED ∈ DrawGame (run [kb_move_and_fire] InitGame).
Proof.
  assert (Hp : projectile_of 0 0 (run [kb_move_and_fire] InitGame)
               = mkProjectile 3 2 1 0 true) by (vm_compute; reflexivity).
  split; [exact Hp|].
  apply DrawGame_draws_exactly_the_active_shots; [apply Inv_run, Inv_InitGame|].
  exists 0%nat, 0%nat. rewrite Hp.
  repeat split; try reflexivity; unfold MAX_PLAYERS, MAX_PROJECTILES; lia.
Defined.

(** X16: in a state that keeps ships and shots on open water, [DrawGame]
    draws a square in a side's colour exactly when that side's ship has
    health left, and then it is the 32x32 square that fills the lower right
    quarter of the ship's cell, with the side's letter and the health text
    on it. A ship without health is not drawn. *)
Theorem DrawGame_draws_a_ship_iff_it_has_health g i :
  Inv g → (i < MAX_PLAYERS)%nat →
  let s := ship_of i g in
  (∀ px py w h,
     DrawRectangle px py w h (side_color i) ∈ DrawGame g ↔
     0 < s_hp s ∧ px = 64 * s_x s + 32 ∧ py = 64 * s_y s + 32 ∧ w = 32 ∧ h = 32) ∧
  (0 < s_hp s →
     DrawText (side_label i) (64 * s_x s + 40) (64 * s_y s + 40) 16 WHITE
       ∈ DrawGame g ∧
     DrawText (snprintf 16 ("HP:" +:+ string_of_int (s_hp s)))
       (64 * s_x s + 32) (64 * s_y s + 19) 14 BLACK ∈ DrawGame g).
Proof.
  intros HI Hi s. subst s. split.
  - intros px py w h. rewrite elem_of_DrawGame, elem_of_background,
      elem_of_terrain_scene, elem_of_shots_scene, elem_of_ships_scene.
    split.
    + intros [Hbg|[(r0 & c0 & Hr & Hc & Hcmd)|[(i' & j & Hi' & Hj & Hcmd)|(i' & Hi' & Hcmd)]]].
      * unfold MAX_PLAYERS in Hi.
        destruct Hbg as [H|[H|[(k & _ & H)|(k & _ & H)]]];
          destruct i as [|[|i]]; try discriminate H; lia.
      * apply cell_cmds_spec in Hcmd as [_ H]; [|done..].
        unfold MAX_PLAYERS in Hi. destruct i as [|[|i]]; try discriminate H; lia.
      * apply slot_cmds_spec in Hcmd as [_ H]; [discriminate H|done..].
      * apply ship_cmds_spec in Hcmd as [Hhp [H|[H|H]]];
          [|discriminate H..|done|done].
        injection H as -> -> -> -> Hcol.
        apply side_color_inj in Hcol as ->; done.
    + intros (Hhp & -> & -> & -> & ->). right; right; right. exists i.
      split; [done|]. apply ship_cmds_spec; [done..|]. split; [done|by left].
  - intros Hhp. split; apply elem_of_DrawGame; right; right; right;
      apply elem_of_ships_scene; exists i; (split; [done|]);
      apply ship_cmds_spec; try done; (split; [done|]); auto.
Qed.

Lemma DrawGame_draws_a_ship_iff_it_has_health_witness :
  DrawRectangle 160 160 32 32 RED ∈ DrawGame InitGame ∧
  DrawText "HP:3" 160 147 14 BLACK ∈ DrawGame InitGame.
Proof.
  assert (Hi : (0 < MAX_PLAYERS)%nat) by (unfold MAX_PLAYERS; lia).
  destruct (DrawGame_draws_a_ship_iff_it_has_health InitGame 0 Inv_InitGame Hi)
    as [Hrect Htext].
  assert (Es : ship_of 0 InitGame = mkShip 2 2 3 0 0 (replicate MAX_PROJECTILES idle))
    by (vm_compute; reflexivity).
  rewrite Es in Hrect, Htext. cbn [s_hp s_x s_y] in Hrect, Htext. split.
  - apply Hrect. repeat split; reflexivity || lia.
  - apply Htext. lia.
Defined.

(** X17: [DrawGame] draws a gray square exactly for the cells of the map
    that are boundary or obstacle, each covering its 64x64 cell; open water
    gets none. *)
Theorem DrawGame_draws_exactly_the_blocking_cells g px py w h :
  DrawRectangle px py w h DARKGRAY ∈ DrawGame g ↔
  ∃ r c, (r < 10)%nat ∧ (c < 20)%nat ∧
         classify (gs_map g) (Z.of_nat c) (Z.of_nat r) ≠ Open ∧
         px = 64 * Z.of_nat c ∧ py = 64 * Z.of_nat r ∧ w = 64 ∧ h = 64.
Proof.
  rewrite elem_of_DrawGame, elem_of_background,
    elem_of_terrain_scene, elem_of_shots_scene, elem_of_ships_scene.
  split.
  - intros [Hbg|[(r0 & c0 & Hr & Hc & Hcmd)|[(i & j & Hi & Hj & Hcmd)|(i & Hi & Hcmd)]]].
    + destruct Hbg as [H|[H|[(k & _ & H)|(k & _ & H)]]]; discriminate H.
    + apply cell_cmds_spec in Hcmd as [Hcl H]; [|done..].
      injection H as -> -> -> ->. by exists r0, c0.
    + unfold slot_cmds in Hcmd. cbv zeta in Hcmd.
      destruct (p_active _); [|by apply elem_of_nil in Hcmd].
      apply list_elem_of_singleton in Hcmd. discriminate Hcmd.
    + unfold ship_cmds in Hcmd. cbv zeta in Hcmd.
      destruct (_ >? 0); [|by apply elem_of_nil in Hcmd].
      rewrite !elem_of_cons, elem_of_nil in Hcmd.
      destruct Hcmd as [H|[H|[H|[]]]]; try discriminate H.
      unfold MAX_PLAYERS in Hi. destruct i as [|[|i]]; try discriminate H; lia.
  - intros (r0 & c0 & Hr & Hc & Hcl & -> & -> & -> & ->).
    right; left. exists r0, c0. split; [done|]. split; [done|].
    by apply cell_cmds_spec.
Qed.



Ltac explode H l :=
  repeat (destruct l as [|? l]; cbn [length] in H;
          [discriminate H | injection H as H]);
  destruct l; [clear H | discriminate H].

Lemma InitMap_eq g : map_dims (gs_map g) → InitMap g = set_map bay g.
Proof.
  destruct g as [pls over m]. unfold map_dims. cbn [gs_map].
  change (Z.to_nat MAP_HEIGHT) with 10%nat.
  change (Z.to_nat MAP_WIDTH) with 20%nat.
  intros [Hm Hrows]. explode Hm m.
  repeat match goal with
         | H : Forall _ (_ :: _) |- _ => apply Forall_cons in H as [? H]
         end.
  clear Hrows. cbn beta in *.
  repeat match goal with
         | H : length ?l = 20%nat |- _ => explode H l
         end.
  vm_compute. reflexivity.
Qed.

Lemma classify_bay x y :
  in_range x y →
  classify bay x y =
    if (x =? 0) || (x =? MAP_WIDTH - 1) || (y =? 0) || (y =? MAP_HEIGHT - 1)
    then Wall
    else if ((x =? 5) && (y =? 3)) || ((x =? 8) && (y =? 5))
            || ((x =? 10) && (y =? 6))
         then Obstacle else Open.
Proof.
  unfold in_range, MAP_WIDTH, MAP_HEIGHT. intros [Hx Hy].
  assert (∃ n k, x = Z.of_nat n ∧ y = Z.of_nat k ∧ (n < 20)%nat ∧ (k < 10)%nat)
    as (n & k & -> & -> & Hn & Hk).
  { exists (Z.to_nat x), (Z.to_nat y). lia. }
  clear Hx Hy.
  do 20 (destruct n as [|n];
         [do 10 (destruct k as [|k]; [vm_compute; reflexivity|]); lia|]).
  lia.
Qed.

(** X13: [InitMap] does not depend on what the map held before. On every
    state it leaves the border cells of the 20x10 grid as boundary, the
    cells (5,3), (8,5) and (10,6) as obstacles and every other cell open,
    and it touches neither the players nor the game-over flag. *)
Theorem InitMap_lays_out_the_bay g :
  map_dims (gs_map g) →
  (∀ x y, in_range x y →
     classify (gs_map (InitMap g)) x y =
       if (x =? 0) || (x =? MAP_WIDTH - 1) || (y =? 0) || (y =? MAP_HEIGHT - 1)
       then Wall
       else if ((x =? 5) && (y =? 3)) || ((x =? 8) && (y =? 5))
               || ((x =? 10) && (y =? 6))
            then Obstacle else Open) ∧
  gs_players (InitMap g) = gs_players g ∧
  gs_gameOver (InitMap g) = gs_gameOver g.
Proof.
  intros Hd. rewrite (InitMap_eq g Hd). split; [|by destruct g].
  intros x y Hr. destruct g. cbn [set_map gs_map]. by apply classify_bay.
Qed.

Lemma InitMap_lays_out_the_bay_witness :
  map_dims (gs_map rocks) ∧
  classify (gs_map rocks) 2 2 = Obstacle ∧
  classify (gs_map (InitMap rocks)) 2 2 = Open ∧
  classify (gs_map (InitMap rocks)) 5 3 = Obstacle ∧
  classify (gs_map (InitMap rocks)) 19 4 = Wall.
Proof.
  assert (Hd : map_dims (gs_map rocks)).
  { split; [reflexivity|]. vm_compute. repeat constructor. }
  destruct (InitMap_lays_out_the_bay rocks Hd) as (H & _ & _).
  assert (Hin : ∀ x y, 0 <= x < 20 → 0 <= y < 10 → in_range x y).
  { unfold in_range, MAP_WIDTH, MAP_HEIGHT. lia. }
  split; [exact Hd|]. split; [vm_compute; reflexivity|].
  split; [|split].
  - rewrite (H 2 2) by (apply Hin; lia). reflexivity.
  - rewrite (H 5 3) by (apply Hin; lia). reflexivity.
  - rewrite (H 19 4) by (apply Hin; lia). reflexivity.
Defined.
